(** * QuckAI: the K-Means engine and the dashboard's clustering pipeline

    A shallow embedding of [utils/kmeans.ts] ([squaredDistance],
    [initializeCentroids], [kmeans]), of the two service wrappers
    [embedContentBatch] and [generateClusterName] of
    [services/geminiService.ts], and of [handleClusterProjects] of the
    dashboard page, followed by the properties checked against the
    written specification.

    Modelling choices.
    - A JavaScript [number] is an IEEE 754 binary64 value: Rocq's primitive
      [float].  Reading an array beyond its end yields [undefined], which
      arithmetic coerces to [NaN].
    - [x ** 2] is rendered as [x * x].
    - [Math.random] is ambient state: the world owns one infinite sequence
      of draws [rand : nat -> nat] and a position [t] in it.  The expression
      [Math.floor(Math.random() * data.length)] is the draw at the current
      position reduced modulo [data.length]; every sequence of in-range
      indices is obtained this way.
    - The [while] loop of [initializeCentroids] has no bound in the source;
      its model takes fuel and answers [None] when the fuel runs out.
    - [k] is an integer ([Z]), array lengths and indices are [nat].  An
      array built with a given length, [new Array(k)] or
      [Array.from({ length: k }, ...)], takes a length from 0 to 2^32 - 1 and
      throws a RangeError for any other integer.  The data handed to the
      engine is a list of any length, and memory is not part of the model.
    - The text of an error the engine raises is V8's. *)

From Stdlib Require Import Floats ZArith Ascii String.
From stdpp Require Import base gmap list strings sorting pretty.

Open Scope Z_scope.
Open Scope nat_scope.

#[local] Set Warnings "-clear-no-such-hyp".

(** ** Outcomes of a JavaScript call *)

Inductive JsError :=
| Error (message : string)       (* [throw new Error(message)] *)
| TypeError (property : string)  (* the property [property] read on [undefined] *)
| RangeError.                    (* an array built with an invalid length *)

Inductive outcome (A : Type) :=
| Returned (a : A)
| Threw (e : JsError)
| Unfinished.                (* the fuel of an unbounded loop ran out *)

Arguments Returned {A} a.
Arguments Threw {A} e.
Arguments Unfinished {A}.

(** ** utils/kmeans.ts *)

Definition Vector := list float.

(** The largest length of an array, 2^32 - 1. *)
Definition maxArrayLength : Z := 4294967295.

(** Whether building an array of length [k] throws a RangeError:
    [new Array(k)] does so for a negative [k] and for a [k] above
    [maxArrayLength]; [Array.from({ length: k }, ...)] reads a negative [k]
    as 0 and throws for a [k] above [maxArrayLength]. *)
Definition invalidArrayLength (k : Z) : bool :=
  (k <? 0)%Z || (maxArrayLength <? k)%Z.

Arguments invalidArrayLength : simpl never.

(** [v[i]] used as a number. *)
Definition at_index (v : Vector) (i : nat) : float := default nan (v !! i).

Definition pow2 (x : float) : float := (x * x)%float.

Definition squaredDistance (a b : Vector) : float :=
  foldl (fun sum i => (sum + pow2 (at_index a i - at_index b i))%float)
        0%float (seq 0 (length a)).

(** [Math.floor(Math.random() * data.length)] at position [t]. *)
Definition randomIndex (rand : nat -> nat) (t : nat) (data : list Vector) : nat :=
  rand t mod length data.

(** [data[index]] for an index known to be in range. *)
Definition pick (data : list Vector) (index : nat) : Vector :=
  default [] (data !! index).

Fixpoint initializeLoop (fuel : nat) (rand : nat -> nat) (data : list Vector)
    (k : Z) (centroids : list Vector) (usedIndices : gset nat) (t : nat)
    : option (list Vector * nat) :=
  if (Z.of_nat (length centroids) <? k)%Z && (length centroids <? length data)
  then
    match fuel with
    | O => None
    | S fuel' =>
        let index := randomIndex rand t data in
        if decide (index ∈ usedIndices)
        then initializeLoop fuel' rand data k centroids usedIndices (S t)
        else initializeLoop fuel' rand data k (centroids ++ [pick data index])
               ({[index]} ∪ usedIndices) (S t)
    end
  else Some (centroids, t).

Definition initializeCentroids (fuel : nat) (rand : nat -> nat) (t : nat)
    (data : list Vector) (k : Z) : option (list Vector * nat) :=
  initializeLoop fuel rand data k [] ∅ t.

(** The inner loop over [j]: [cs] are the centroids from index [j] on. *)
Fixpoint nearest (x : Vector) (cs : list Vector) (j : nat)
    (minDistance : float) (closestCentroid : nat) : nat :=
  match cs with
  | [] => closestCentroid
  | c :: cs' =>
      let distance := squaredDistance x c in
      if (distance <? minDistance)%float
      then nearest x cs' (S j) distance j
      else nearest x cs' (S j) minDistance closestCentroid
  end.

Definition closest (centroids : list Vector) (x : Vector) : nat :=
  nearest x centroids 0 infinity 0.

(** Step 2 of an iteration: the new assignments and the [changed] flag. *)
Fixpoint assignPoints (centroids data : list Vector) (assignments : list nat)
    : list nat * bool :=
  match data, assignments with
  | x :: data', a :: assignments' =>
      let c := closest centroids x in
      let '(rest, changed) := assignPoints centroids data' assignments' in
      (c :: rest, negb (a =? c) || changed)
  | _, _ => ([], false)
  end.

(** [acc[d] += x[d]] for every [d < x.length]; a slot beyond the end of
    [acc] is created holding [undefined + x[d]]. *)
Fixpoint addInto (acc x : Vector) : Vector :=
  match x, acc with
  | [], _ => acc
  | xd :: x', [] => (nan + xd)%float :: addInto [] x'
  | xd :: x', ad :: acc' => (ad + xd)%float :: addInto acc' x'
  end.

(** The accumulation loop of step 3.  When [clusterIndex] is not an index of
    [newCentroids], [newCentroids[clusterIndex]] is [undefined]: indexing it
    throws as soon as the point has a coordinate, and [counts] only grows
    past the entries that are read later. *)
Fixpoint accumulate (data : list Vector) (assignments : list nat)
    (newCentroids : list Vector) (counts : list nat)
    : outcome (list Vector * list nat) :=
  match data, assignments with
  | x :: data', clusterIndex :: assignments' =>
      match newCentroids !! clusterIndex with
      | Some acc =>
          accumulate data' assignments'
            (<[clusterIndex := addInto acc x]> newCentroids)
            (alter S clusterIndex counts)
      | None =>
          match x with
          | [] => accumulate data' assignments' newCentroids counts
          | _ :: _ => Threw (TypeError "0")
          end
      end
  | _, _ => Returned (newCentroids, counts)
  end.

Definition float_of_nat (n : nat) : float :=
  PrimFloat.of_uint63 (Uint63.of_Z (Z.of_nat n)).

(** The averaging loop of step 3, with the re-initialisation of a centroid
    whose cluster is empty; it consumes one draw per empty cluster. *)
Fixpoint finishCentroids (rand : nat -> nat) (data : list Vector)
    (newCentroids : list Vector) (counts : list nat) (t : nat)
    : list Vector * nat :=
  match newCentroids, counts with
  | sum :: newCentroids', count :: counts' =>
      if 0 <? count
      then
        let '(rest, t') := finishCentroids rand data newCentroids' counts' t in
        (map (fun x => (x / float_of_nat count)%float) sum :: rest, t')
      else
        let '(rest, t') := finishCentroids rand data newCentroids' counts' (S t) in
        (pick data (randomIndex rand t data) :: rest, t')
  | _, _ => ([], t)
  end.

Record KMeansResult := {
  assignments : list nat;
  centroids : list Vector
}.

(** The main [for] loop: [maxIterations] counts the iterations left.  Step 3
    begins with [Array.from({ length: k }, ...)], which throws for a [k]
    above [maxArrayLength], and [new Array(k)], which throws for a negative
    [k]. *)
Fixpoint iterate (maxIterations : nat) (rand : nat -> nat) (data : list Vector)
    (k : Z) (cs : list Vector) (asg : list nat) (changed : bool) (t : nat)
    : outcome (KMeansResult * nat) :=
  match maxIterations with
  | O => Returned ({| assignments := asg; centroids := cs |}, t)
  | S more =>
      if changed then
        let '(asg', changed') := assignPoints cs data asg in
        if invalidArrayLength k then Threw RangeError
        else
          let dim := length (default [] (head data)) in
          let zeros := replicate (Z.to_nat k) (replicate dim 0%float) in
          match accumulate data asg' zeros (replicate (Z.to_nat k) 0) with
          | Returned (sums, counts) =>
              let '(cs', t') := finishCentroids rand data sums counts t in
              iterate more rand data k cs' asg' changed' t'
          | Threw e => Threw e
          | Unfinished => Unfinished
          end
      else Returned ({| assignments := asg; centroids := cs |}, t)
  end.

Definition defaultMaxIterations : nat := 50.

Definition kmeans (fuel : nat) (rand : nat -> nat) (t : nat)
    (data : list Vector) (k : Z) (maxIterations : nat)
    : outcome (KMeansResult * nat) :=
  if (length data =? 0) || (k =? 0)%Z
  then Returned ({| assignments := []; centroids := [] |}, t)
  else
    match initializeCentroids fuel rand t data k with
    | None => Unfinished
    | Some (cs, t') =>
        iterate maxIterations rand data k cs (replicate (length data) 0) true t'
    end.

(** ** types.ts: the part of a project the pipeline reads

    [assets], [lastModified] and [lastActivePage] are never read by
    [handleClusterProjects] and are left out. *)

Record Prompts := {
  text : string;
  image : string;
  tts : string;
  video : string
}.

Record Project := {
  id : string;
  title : string;
  prompts : Prompts
}.

(** ** JavaScript string helpers

    A string is a sequence of code units below 256. *)

Definition newline : string := String (ascii_of_nat 10) EmptyString.

Definition isWhiteSpace (c : ascii) : bool :=
  let n := nat_of_ascii c in
  (n =? 9) || (n =? 10) || (n =? 11) || (n =? 12) || (n =? 13) || (n =? 32)
  || (n =? 160).

Fixpoint trimStart (s : string) : string :=
  match s with
  | String c s' => if isWhiteSpace c then trimStart s' else s
  | EmptyString => EmptyString
  end.

Fixpoint trimEnd (s : string) : string :=
  match s with
  | String c s' =>
      match trimEnd s' with
      | EmptyString => if isWhiteSpace c then EmptyString else String c EmptyString
      | rest => String c rest
      end
  | EmptyString => EmptyString
  end.

(** [s.trim()] *)
Definition trim (s : string) : string := trimEnd (trimStart s).

(** [s.replace(re, '')] where the global pattern [re] matches the
    double-quote character (code 34). *)
Fixpoint removeQuotes (s : string) : string :=
  match s with
  | String c s' =>
      if nat_of_ascii c =? 34 then removeQuotes s' else String c (removeQuotes s')
  | EmptyString => EmptyString
  end.

(** [parts.join(sep)] *)
Fixpoint join (sep : string) (parts : list string) : string :=
  match parts with
  | [] => EmptyString
  | [s] => s
  | s :: rest => s +:+ sep +:+ join sep rest
  end.

(** ** services/geminiService.ts

    The Gemini client is outside the repository: [None] stands for a call
    that throws, rejects, or answers with a malformed response. *)

Record Gemini := {
  batchEmbedContents : list string -> option (list Vector);
  generateContent : string -> option string
}.

Definition embedContentBatch (ai : Gemini) (texts : list string)
    : outcome (list Vector) :=
  match batchEmbedContents ai texts with
  | Some embeddings => Returned embeddings
  | None => Threw (Error "Failed to generate embeddings.")
  end.

Definition clusterNamePrompt (projectPrompts : list string) : string :=
  "I have a cluster of project descriptions. Based on these descriptions, please generate a short, descriptive, and catchy title for the cluster (3-5 words max). Here are the project descriptions:"
  +:+ newline +:+ newline +:+ "- "
  +:+ join (newline +:+ "- ") (take 5 projectPrompts)
  +:+ newline +:+ newline +:+ "Respond with only the title.".

Definition generateClusterName (ai : Gemini) (projectPrompts : list string)
    : outcome string :=
  match generateContent ai (clusterNamePrompt projectPrompts) with
  | Some responseText => Returned (removeQuotes (trim responseText))
  | None => Threw (Error "Failed to generate a name for the cluster.")
  end.


(** ** pages/Dashboard.tsx: [handleClusterProjects] *)

Record Cluster := {
  name : string;
  projectIds : list string
}.

(** The three pieces of component state the handler writes. *)
Record Dashboard := {
  clusters : option (list Cluster);
  isClustering : bool;
  clusteringError : option string
}.

(** Ghost trace of the outbound calls of one run, oldest first. *)
Inductive Event :=
| EmbedCall (texts : list string)
| KMeansCall (data : list Vector) (k : Z)
| NameCall (projectPrompts : list string).

(** [err.message]; the text of an engine-raised error is the engine's
    (V8's wording here). *)
Definition errorMessage (e : JsError) : string :=
  match e with
  | Error message => message
  | TypeError property =>
      "Cannot read properties of undefined (reading '" +:+ property +:+ "')"
  | RangeError => "Invalid array length"
  end.

(** [p.prompts.text || p.prompts.image || p.prompts.tts]: a string is truthy
    exactly when it is not empty. *)
Definition truthy (s : string) : bool :=
  match s with EmptyString => false | String _ _ => true end.

Definition hasPrompts (p : Project) : bool :=
  truthy (text (prompts p)) || truthy (image (prompts p)) || truthy (tts (prompts p)).

(** [projects.filter(p => p.prompts.text || p.prompts.image || p.prompts.tts)] *)
Definition projectsWithPrompts (projects : list Project) : list Project :=
  filter (fun p => hasPrompts p = true) projects.

Definition embedText (p : Project) : string :=
  trim (title p +:+ ". " +:+ text (prompts p) +:+ " " +:+ image (prompts p)
        +:+ " " +:+ tts (prompts p)).

(** [assignments.map((a, index) => a === i ? index : -1).filter(x => x !== -1)],
    with [None] for the sentinel [-1]. *)
Definition projectIndicesOf (asg : list nat) (i : nat) : list nat :=
  omap (fun x => x)
       (imap (fun index assignment =>
                if decide (assignment = i) then Some index else None) asg).

Definition namingText (projects : list Project) (pid : string) : string :=
  match List.find (fun p => bool_decide (id p = pid)) projects with
  | Some proj => trim (title proj +:+ ". " +:+ text (prompts proj))
  | None => trim "undefined. undefined"
  end.

(** The [for] loop over the buckets [i, i+1, ...] listed in [buckets];
    [ids] is [data.map(d => d.id)]. *)
Fixpoint nameBuckets (ai : Gemini) (projects : list Project) (ids : list string)
    (asg : list nat) (buckets : list nat) (log : list Event)
    : outcome (list Cluster) * list Event :=
  match buckets with
  | [] => (Returned [], log)
  | i :: buckets' =>
      match projectIndicesOf asg i with
      | [] => nameBuckets ai projects ids asg buckets' log
      | projectIndices =>
          match mapM (fun index => ids !! index) projectIndices with
          | None => (Threw (TypeError "id"), log)
          | Some projectIdsInCluster =>
              let projectPromptsForNaming :=
                map (namingText projects) projectIdsInCluster in
              let log' := log ++ [NameCall projectPromptsForNaming] in
              match generateClusterName ai projectPromptsForNaming with
              | Returned clusterName =>
                  match nameBuckets ai projects ids asg buckets' log' with
                  | (Returned newClusters, log'') =>
                      (Returned ({| name := clusterName;
                                    projectIds := projectIdsInCluster |}
                                 :: newClusters), log'')
                  | other => other
                  end
              | Threw e => (Threw e, log')
              | Unfinished => (Unfinished, log')
              end
          end
      end
  end.

(** [initializeCentroids] reads its data through [data.length] and
    [data[index]] only: the same loop on [n] points, keeping the indices it
    picks. *)
Fixpoint pickLoop (fuel : nat) (rand : nat -> nat) (n : nat) (k : Z)
    (indices : list nat) (usedIndices : gset nat) (t : nat)
    : option (list nat * nat) :=
  if (Z.of_nat (length indices) <? k)%Z && (length indices <? n)
  then
    match fuel with
    | O => None
    | S fuel' =>
        let index := rand t mod n in
        if decide (index ∈ usedIndices)
        then pickLoop fuel' rand n k indices usedIndices (S t)
        else pickLoop fuel' rand n k (indices ++ [index])
               ({[index]} ∪ usedIndices) (S t)
    end
  else Some (indices, t).

Definition pickIndices (fuel : nat) (rand : nat -> nat) (t : nat) (n : nat)
    (k : Z) : option (list nat * nat) :=
  pickLoop fuel rand n k [] ∅ t.

(** The first assignment pass of [kmeans] on data some of whose points are
    [undefined] ([None]), with at least one centroid: the property whose
    read throws.  [squaredDistance(a, b)] reads [a.length], and then [b[0]]
    if [a] has a coordinate; a point that is a vector without coordinates
    is passed over. *)
Fixpoint undefinedRead (data centroids : list (option Vector)) : string :=
  match data with
  | Some a :: data' =>
      if (0 <? length a) && existsb (fun b => bool_decide (b = None)) centroids
      then "0"
      else undefinedRead data' centroids
  | _ => "length"
  end.

(** The body of the [try] block.  [embeddings[i]] is [undefined] past the end
    of the provider's answer; [kmeans] then runs its initialisation and
    throws a [TypeError] in its first assignment pass. *)
Definition clusterBody (ai : Gemini) (fuel : nat) (rand : nat -> nat) (t : nat)
    (projects : list Project) : outcome (list Cluster) * list Event :=
  let promptsToEmbed :=
    map (fun p => (id p, embedText p)) (projectsWithPrompts projects) in
  let texts := map snd promptsToEmbed in
  match embedContentBatch ai texts with
  | Returned embeddings =>
      let data := imap (fun i p => (fst p, embeddings !! i)) promptsToEmbed in
      let numClusters := length (projectsWithPrompts projects) `min` 3 in
      let log := [EmbedCall texts] in
      match mapM snd data with
      | Some vectors =>
          let log' := log ++ [KMeansCall vectors (Z.of_nat numClusters)] in
          match kmeans fuel rand t vectors (Z.of_nat numClusters)
                  defaultMaxIterations with
          | Returned (kmeansResult, _) =>
              nameBuckets ai projects (map fst data) (assignments kmeansResult)
                (seq 0 numClusters) log'
          | Threw e => (Threw e, log')
          | Unfinished => (Unfinished, log')
          end
      | None =>
          let points := map snd data in
          let shown := map (default []) points in
          let log' := log ++ [KMeansCall shown (Z.of_nat numClusters)] in
          match pickIndices fuel rand t (length points)
                  (Z.of_nat numClusters) with
          | Some (indices, _) =>
              let centroids := map (fun index => mjoin (points !! index)) indices in
              (Threw (TypeError (undefinedRead points centroids)), log')
          | None => (Unfinished, log')
          end
      end
  | Threw e => (Threw e, [EmbedCall texts])
  | Unfinished => (Unfinished, [EmbedCall texts])
  end.

Definition handleClusterProjects (ai : Gemini) (fuel : nat) (rand : nat -> nat)
    (t : nat) (projects : list Project) (st : Dashboard)
    : option (Dashboard * list Event) :=
  if length projects <? 2 then
    Some ({| clusters := clusters st;
             isClustering := isClustering st;
             clusteringError :=
               Some "You need at least two projects to create clusters." |}, [])
  else
    match clusterBody ai fuel rand t projects with
    | (Returned newClusters, log) =>
        Some ({| clusters := Some newClusters;
                 isClustering := false;
                 clusteringError := None |}, log)
    | (Threw e, log) =>
        Some ({| clusters := None;
                 isClustering := false;
                 clusteringError := Some (errorMessage e) |}, log)
    | (Unfinished, _) => None
    end.

(** ** Sample inputs *)

Definition sepData : list Vector :=
  [[0; 0]; [0; 0]; [10; 10]; [10; 10]]%float.

Definition mkProject (i ti tx : string) : Project :=
  {| id := i; title := ti;
     prompts := {| text := tx; image := EmptyString; tts := EmptyString;
                   video := EmptyString |} |}.

Definition sampleProjects : list Project :=
  [mkProject "p1" "Cats" "a poem about cats";
   mkProject "p2" "Empty" EmptyString;
   mkProject "p3" "Dogs" "a song about dogs";
   mkProject "p4" "Rockets" "how rockets work"].

(** A provider that embeds the i-th text as the point [10 i] and names
    every cluster. *)
Definition goodAi : Gemini :=
  {| batchEmbedContents := fun texts =>
       Some (imap (fun i _ => [float_of_nat (10 * i)]) texts);
     generateContent := fun _ => Some " Some Title " |}.

(** A provider whose naming call fails for exactly one sample. *)
Definition flakyAi : Gemini :=
  {| batchEmbedContents := batchEmbedContents goodAi;
     generateContent := fun prompt =>
       if decide (prompt = clusterNamePrompt ["Dogs. a song about dogs"])
       then None else Some "Some Title" |}.

(** A provider that embeds the first two texts as the same point. *)
Definition twinAi : Gemini :=
  {| batchEmbedContents := fun texts =>
       Some (imap (fun i _ => [float_of_nat (10 * (i / 2))]) texts);
     generateContent := fun _ => Some "Some Title" |}.

Definition idle : Dashboard :=
  {| clusters := None; isClustering := false; clusteringError := None |}.

(** Where the run on [sampleProjects] ends with [flakyAi]. *)
Definition flakyState : Dashboard :=
  {| clusters := None;
     isClustering := false;
     clusteringError := Some "Failed to generate a name for the cluster." |}.

Definition flakyLog : list Event :=
  [EmbedCall ["Cats. a poem about cats"; "Dogs. a song about dogs";
              "Rockets. how rockets work"];
   KMeansCall [[0]; [10]; [20]]%float 3;
   NameCall ["Cats. a poem about cats"];
   NameCall ["Dogs. a song about dogs"]].

(** Where the run on [sampleProjects] ends with [twinAi]. *)
Definition twinState : Dashboard :=
  {| clusters :=
       Some [{| name := "Some Title"; projectIds := ["p1"; "p3"] |};
             {| name := "Some Title"; projectIds := ["p4"] |}];
     isClustering := false;
     clusteringError := None |}.

Definition twinLog : list Event :=
  [EmbedCall ["Cats. a poem about cats"; "Dogs. a song about dogs";
              "Rockets. how rockets work"];
   KMeansCall [[0]; [0]; [10]]%float 3;
   NameCall ["Cats. a poem about cats"; "Dogs. a song about dogs"];
   NameCall ["Rockets. how rockets work"]].

(** The indices drawn by the [m] calls of [Math.random] that follow
    position [t]. *)
Definition drawsSeen (rand : nat -> nat) (t : nat) (data : list Vector) (m : nat)
    : gset nat :=
  list_to_set (map (fun i => randomIndex rand (t + i) data) (seq 0 m)).

(** Within [m] draws the random source has produced as many distinct
    indices as the initialisation needs. *)
Definition enoughDraws (rand : nat -> nat) (t : nat) (data : list Vector)
    (k : Z) (m : nat) : Prop :=
  (k <= Z.of_nat (size (drawsSeen rand t data m)))%Z
  ∨ length data <= size (drawsSeen rand t data m).

(** The members of bucket [i], read off the labelling: the identifiers, in
    their order, of the positions that [asg] labels [i]. *)
Definition bucketMembers (ids : list string) (asg : list nat) (i : nat)
    : list string :=
  (filter (fun p => p.2 = i) (zip ids asg)).*1.

(** What [generateClusterName] throws. *)
Definition namingFailure : JsError :=
  Error "Failed to generate a name for the cluster.".

(** The naming provider answers for this sample. *)
Definition named (ai : Gemini) (projectPrompts : list string) : Prop :=
  is_Some (generateContent ai (clusterNamePrompt projectPrompts)).

(** The result of a run without the position it leaves [Math.random] at. *)
Definition dropPosition {A : Type} (o : outcome (A * nat)) : outcome A :=
  match o with
  | Returned (a, _) => Returned a
  | Threw e => Threw e
  | Unfinished => Unfinished
  end.

(** [rand1] read from position [t1] and [rand2] read from position [t2]
    deliver the same draws. *)
Definition agreeFrom (rand1 rand2 : nat -> nat) (t1 t2 : nat) : Prop :=
  forall i, rand1 (t1 + i) = rand2 (t2 + i).

(** A random source of period four: 0, 1, 1, 0, 0, 1, 1, 0, ... *)
Definition alternatingDraws (i : nat) : nat :=
  match i mod 4 with
  | 0 => 0
  | 1 => 1
  | 2 => 1
  | _ => 0
  end.

(** The labelling a run returned, if it returned. *)
Definition labelsOf (o : outcome (KMeansResult * nat)) : option (list nat) :=
  match o with
  | Returned (r, _) => Some (assignments r)
  | _ => None
  end.

(** What [kmeans] answers on [sepData] with k = 2 when the initial centroids
    are the points of index [i] and [j]: the points of index 0 and 1 form
    one group, those of index 2 and 3 the other. *)
Definition sepLabels (i j : nat) : list nat :=
  if decide (i / 2 = j / 2) then [0; 0; 0; 0]
  else if decide (i < 2) then [0; 0; 1; 1] else [1; 1; 0; 0].

(** * The rest of the code around the pipeline

    The parts of the engine taken on their own, the utilities of
    [utils/cryptoUtils.ts] and [utils/fileUtils.ts], the score clamp of
    [predictEngagementScore], the project handlers of [App.tsx], the
    project card of the dashboard and the history hook.

    Further modelling choices.
    - Strings are sequences of code units below 256.
    - [TextEncoder.encode] and [crypto.subtle.digest] belong to the
      platform: [generateSha256Hash] takes them as arguments.
    - A [FileReader] answers with one event, [onload] or [onerror].
    - A React state is a value; a handler is a function from the state it is
      called in to the state of the next render.
    - Times ([Date.now()], [new Date()]) are integers handed to the handler
      that reads them. *)

(** ** utils/kmeans.ts: the steps of one iteration *)

(** What the scan of the assignment step knows of the point [x] after the
    centroids [seen]: nothing seen is strictly below the running minimum,
    which is either the initial [Infinity] or the distance of the
    candidate; that distance is below [Infinity], and no centroid before the
    candidate is at most as far. *)
Definition scanInvariant (x : Vector) (seen : list Vector) (m : float) (c : nat)
    : Prop :=
  (forall j c', seen !! j = Some c' -> (squaredDistance x c' <? m)%float = false)
  ∧ ((c = 0 ∧ m = infinity)
     ∨ (exists c0, seen !! c = Some c0 ∧ m = squaredDistance x c0
        ∧ (m <? infinity)%float = true
        ∧ forall j c', j < c -> seen !! j = Some c' ->
            (squaredDistance x c' <=? m)%float = false)).

Definition scanResult (x : Vector) (all : list Vector) (r : nat) : Prop :=
  (r = 0 ∧ forall j c', all !! j = Some c' ->
             (squaredDistance x c' <? infinity)%float = false)
  ∨ (exists c_r, all !! r = Some c_r
     ∧ (squaredDistance x c_r <? infinity)%float = true
     ∧ (forall j c', all !! j = Some c' ->
          (squaredDistance x c' <? squaredDistance x c_r)%float = false)
     ∧ (forall j c', j < r -> all !! j = Some c' ->
          (squaredDistance x c' <=? squaredDistance x c_r)%float = false)).

(** The points labelled [i], in input order. *)
Definition clusterMembers (data : list Vector) (asg : list nat) (i : nat)
    : list Vector :=
  (filter (fun p => p.2 = i) (zip data asg)).*1.

(** The coordinate-wise sum the accumulation loop builds for one cluster:
    the members are added one after the other to a zero vector. *)
Definition vectorSum (dim : nat) (members : list Vector) : Vector :=
  foldl addInto (replicate dim 0%float) members.

(** Step 3 of one iteration of [kmeans] on its own. *)
Definition updateCentroids (rand : nat -> nat) (data : list Vector) (k : Z)
    (asg : list nat) (t : nat) : outcome (list Vector * nat) :=
  if invalidArrayLength k then Threw RangeError
  else
    let dim := length (default [] (head data)) in
    let zeros := replicate (Z.to_nat k) (replicate dim 0%float) in
    match accumulate data asg zeros (replicate (Z.to_nat k) 0) with
    | Returned (sums, counts) =>
        Returned (finishCentroids rand data sums counts t)
    | Threw e => Threw e
    | Unfinished => Unfinished
    end.

(** ** Characters *)

Definition chars (s : string) : list ascii := list_ascii_of_string s.

Definition doubleQuote : ascii := ascii_of_nat 34.

(** ** utils/cryptoUtils.ts *)

(** The digit of [d] in [n.toString(16)]. *)
Definition hexDigit (d : nat) : ascii :=
  match d with
  | 0 => "0" | 1 => "1" | 2 => "2" | 3 => "3" | 4 => "4" | 5 => "5"
  | 6 => "6" | 7 => "7" | 8 => "8" | 9 => "9" | 10 => "a" | 11 => "b"
  | 12 => "c" | 13 => "d" | 14 => "e" | _ => "f"
  end%char.

(** [n.toString(16)] for a non-negative integer; [fuel] bounds the number
    of digits. *)
Fixpoint toString16From (fuel n : nat) (acc : string) : string :=
  match fuel with
  | O => acc
  | S fuel' =>
      let acc' := String (hexDigit (n mod 16)) acc in
      if n / 16 =? 0 then acc' else toString16From fuel' (n / 16) acc'
  end.

Definition toString16 (n : nat) : string := toString16From (S n) n EmptyString.

(** [s.padStart(targetLength, pad)] for a one-character [pad]. *)
Definition padStart (targetLength : nat) (pad : ascii) (s : string) : string :=
  string_of_list_ascii (replicate (targetLength - String.length s) pad) +:+ s.

(** The last two lines of [generateSha256Hash]: the bytes of the digest, each
    a number below 256 as a [Uint8Array] holds them, written in hexadecimal. *)
Definition hashHex (hashArray : list nat) : string :=
  join EmptyString (map (fun b => padStart 2 "0" (toString16 b)) hashArray).

Inductive HashInput :=
| TextInput (s : string)
| BufferInput (bytes : list nat).

(** The [data] handed to the digest. *)
Definition hashData (encode : string -> list nat) (input : HashInput)
    : list nat :=
  match input with
  | TextInput s => encode s
  | BufferInput bytes => bytes
  end.

(** [generateSha256Hash]: [encode] is [TextEncoder.encode] and [digest] is
    [crypto.subtle.digest('SHA-256', _)]. *)
Definition generateSha256Hash (encode : string -> list nat)
    (digest : list nat -> list nat) (input : HashInput) : string :=
  hashHex (digest (hashData encode input)).

Definition isHexChar (c : ascii) : bool :=
  let n := nat_of_ascii c in
  ((48 <=? n) && (n <=? 57)) || ((97 <=? n) && (n <=? 102)).

(** ** utils/fileUtils.ts *)

(** [s.split(sep)] for a one-character separator: the pieces between the
    separators, at least one piece. *)
Fixpoint splitOn (sep : ascii) (s : string) : list string :=
  match s with
  | EmptyString => [EmptyString]
  | String c s' =>
      if decide (c = sep) then EmptyString :: splitOn sep s'
      else match splitOn sep s' with
           | piece :: pieces => String c piece :: pieces
           | [] => [String c EmptyString]
           end
  end.

(** What the [FileReader] hands to its callbacks. *)
Inductive ReaderEvent :=
| Loaded (result : option string)   (* [onload]; [None]: the result is not a string *)
| Failed (error : JsError).         (* [onerror] *)

(** [fileToBase64]: the promise resolves ([Returned]) or rejects ([Threw]). *)
Definition fileToBase64 (event : ReaderEvent) : outcome string :=
  match event with
  | Loaded (Some result) =>
      match splitOn "," result !! 1 with
      | Some base64String =>
          if truthy base64String then Returned base64String
          else Threw (Error "Could not extract base64 string from file.")
      | None => Threw (Error "Could not extract base64 string from file.")
      end
  | Loaded None => Threw (Error "Failed to read file as a data URL.")
  | Failed error => Threw error
  end.

(** ** services/geminiService.ts: [predictEngagementScore] *)

(** [Math.min(a, b)] and [Math.max(a, b)]: NaN if an argument is NaN, and
    the negative zero counts as smaller than the positive one. *)
Definition mathMin (a b : float) : float :=
  if is_nan a || is_nan b then nan
  else if (b <? a)%float then b
  else if (a <? b)%float then a
  else match classify a with PZero => b | _ => a end.

Definition mathMax (a b : float) : float :=
  if is_nan a || is_nan b then nan
  else if (a <? b)%float then b
  else if (b <? a)%float then a
  else match classify a with NZero => b | _ => a end.

(** [predictEngagementScore]: [answer] is the parsed JSON of the model's
    response, its [score] read as a number; [None] when the call or
    [JSON.parse] throws. *)
Definition predictEngagementScore (answer : option (float * string))
    : outcome (float * string) :=
  match answer with
  | Some (score, explanation) =>
      Returned (mathMax 0 (mathMin 1 score), explanation)
  | None => Threw (Error "Failed to predict engagement score.")
  end.

(** ** App.tsx *)

Inductive Page :=
| PageDashboard | PageText | PageImage | PageAudio | PageVideo
| PageRoadmap | PageSentiment | PageAnalysis | PageHashing.

#[global] Instance Page_eq_dec : EqDecision Page.
Proof. solve_decision. Defined.

Inductive AssetType := AssetText | AssetImage | AssetAudio | AssetVideo.

Record Asset := {
  assetId : string;
  assetType : AssetType;
  content : string;
  assetPrompt : option string
}.

(** The whole [Project] of types.ts: the part the pipeline reads, and the
    rest.  [lastModified] is a time in milliseconds. *)
Record StoredProject := {
  project : Project;
  assets : list Asset;
  lastModified : Z;
  lastActivePage : option Page
}.

Record App := {
  currentPage : Page;
  projects : list StoredProject;
  selectedProjectId : option string
}.

Definition projectId (p : StoredProject) : string := id (project p).

(** [['dashboard', 'roadmap', 'analysis', 'sentiment', 'hashing'].includes(page)] *)
Definition isToolPage (page : Page) : bool :=
  match page with
  | PageDashboard | PageRoadmap | PageAnalysis | PageSentiment | PageHashing => true
  | _ => false
  end.

Definition findProject (pid : string) (ps : list StoredProject)
    : option StoredProject :=
  List.find (fun p => bool_decide (projectId p = pid)) ps.

(** [handleUpdateProject]; [now] is what [new Date()] reads. *)
Definition handleUpdateProject (now : Z) (updatedProject : StoredProject)
    (app : App) : App :=
  {| currentPage := currentPage app;
     projects :=
       map (fun p =>
              if bool_decide (projectId p = projectId updatedProject)
              then {| project := project updatedProject;
                      assets := assets updatedProject;
                      lastModified := now;
                      lastActivePage := lastActivePage updatedProject |}
              else p) (projects app);
     selectedProjectId := selectedProjectId app |}.

Definition handleSetCurrentPage (now : Z) (page : Page) (app : App) : App :=
  let app' :=
    match selectedProjectId app with
    | Some sid =>
        if truthy sid && negb (isToolPage page) then
          match findProject sid (projects app) with
          | Some projectToUpdate =>
              if bool_decide (lastActivePage projectToUpdate <> Some page)
              then handleUpdateProject now
                     {| project := project projectToUpdate;
                        assets := assets projectToUpdate;
                        lastModified := lastModified projectToUpdate;
                        lastActivePage := Some page |} app
              else app
          | None => app
          end
        else app
    | None => app
    end in
  {| currentPage := page;
     projects := projects app';
     selectedProjectId := selectedProjectId app' |}.

(** [handleCreateProject]; [idTime] is what [Date.now()] reads and [now]
    what [new Date()] reads. *)
Definition newProject (idTime now : Z) : StoredProject :=
  {| project :=
       {| id := "proj-" +:+ pretty idTime;
          title := "Untitled Project";
          prompts := {| text := EmptyString; image := EmptyString;
                        tts := EmptyString; video := EmptyString |} |};
     assets := [];
     lastModified := now;
     lastActivePage := Some PageText |}.

Definition handleCreateProject (idTime now : Z) (app : App) : App :=
  {| currentPage := PageText;
     projects := newProject idTime now :: projects app;
     selectedProjectId := Some (projectId (newProject idTime now)) |}.

Definition handleSelectProject (pid : string) (app : App) : App :=
  match findProject pid (projects app) with
  | Some p =>
      {| currentPage :=
           match lastActivePage p with
           | Some page => if isToolPage page then PageText else page
           | None => PageText
           end;
         projects := projects app;
         selectedProjectId := Some pid |}
  | None => app
  end.

Definition backToDashboard (app : App) : App :=
  {| currentPage := PageDashboard;
     projects := projects app;
     selectedProjectId := None |}.

(** What the user can do to the application state. *)
Inductive AppEvent :=
| UpdateProject (now : Z) (updatedProject : StoredProject)
| SetCurrentPage (now : Z) (page : Page)
| CreateProject (idTime now : Z)
| SelectProject (pid : string)
| BackToDashboard.

Definition handleEvent (e : AppEvent) (app : App) : App :=
  match e with
  | UpdateProject now p => handleUpdateProject now p app
  | SetCurrentPage now page => handleSetCurrentPage now page app
  | CreateProject idTime now => handleCreateProject idTime now app
  | SelectProject pid => handleSelectProject pid app
  | BackToDashboard => backToDashboard app
  end.

(** ** pages/Dashboard.tsx: [ProjectCard] *)

(** What [handleSave] does: the call of [onUpdate], if any, and the [title]
    and [isEditing] states it leaves.  [titleInput] is the [title] state the
    input field has been edited to. *)
Record SaveResult := {
  updateCall : option StoredProject;
  titleState : string;
  isEditingState : bool
}.

Definition handleSave (p : StoredProject) (titleInput : string) : SaveResult :=
  if truthy (trim titleInput) && bool_decide (trim titleInput <> title (project p))
  then {| updateCall :=
            Some {| project := {| id := id (project p);
                                  title := trim titleInput;
                                  prompts := prompts (project p) |};
                    assets := assets p;
                    lastModified := lastModified p;
                    lastActivePage := lastActivePage p |};
          titleState := titleInput;
          isEditingState := false |}
  else {| updateCall := None;
          titleState := title (project p);
          isEditingState := false |}.

(** [handleExport].  [asset.type] has the four values of its type, so the
    extension 'bin' of the last branch is never chosen. *)
Definition assetTypeName (ty : AssetType) : string :=
  match ty with
  | AssetText => "text" | AssetImage => "image"
  | AssetAudio => "audio" | AssetVideo => "video"
  end.

Definition fileExtension (ty : AssetType) : string :=
  match ty with
  | AssetText => "txt" | AssetImage => "png"
  | AssetAudio => "mp3" | AssetVideo => "mp4"
  end.

(** [`${asset.type}_${index + 1}.${fileExtension}`] *)
Definition assetFileName (ty : AssetType) (index : nat) : string :=
  assetTypeName ty +:+ "_" +:+ pretty (index + 1) +:+ "." +:+ fileExtension ty.

(** The entry of the assets folder written for the asset at [index]: its
    name and its content.  [fetch] is the outcome of
    [fetch(asset.content)] followed by [response.blob()], [None] when either
    throws. *)
Definition assetEntry (fetch : string -> option string) (index : nat)
    (asset : Asset) : string * string :=
  let fileName := assetFileName (assetType asset) index in
  match assetType asset with
  | AssetText => (fileName, content asset)
  | _ =>
      match fetch (content asset) with
      | Some blob => (fileName, blob)
      | None =>
          (fileName +:+ ".error.txt",
           "Failed to download asset from source." +:+ newline +:+ "ID: "
           +:+ assetId asset)
      end
  end.

Definition assetEntries (fetch : string -> option string)
    (assets : list Asset) : list (string * string) :=
  imap (assetEntry fetch) assets.

(** [/[^a-z0-9]/gi]: without the u flag, a code unit above 127 never matches
    an ASCII letter, so the class is the ASCII letters and digits. *)
Definition isAsciiAlnum (c : ascii) : bool :=
  let n := nat_of_ascii c in
  ((48 <=? n) && (n <=? 57)) || ((65 <=? n) && (n <=? 90))
  || ((97 <=? n) && (n <=? 122)).

(** [title.replace(/[^a-z0-9]/gi, '_')] *)
Fixpoint replaceNonAlnum (s : string) : string :=
  match s with
  | EmptyString => EmptyString
  | String c s' =>
      String (if isAsciiAlnum c then c else "_"%char) (replaceNonAlnum s')
  end.

(** [toLowerCase] on code units below 256: A to Z, and the capital letters of
    Latin-1 (192 to 222 without the multiplication sign 215). *)
Definition lowerChar (c : ascii) : ascii :=
  let n := nat_of_ascii c in
  if ((65 <=? n) && (n <=? 90))
     || ((192 <=? n) && (n <=? 222) && negb (n =? 215))
  then ascii_of_nat (n + 32) else c.

Fixpoint toLowerCase (s : string) : string :=
  match s with
  | EmptyString => EmptyString
  | String c s' => String (lowerChar c) (toLowerCase s')
  end.

Definition safeTitle (p : Project) : string :=
  toLowerCase (replaceNonAlnum (title p)).

(** The name [saveAs] is given. *)
Definition exportFileName (p : Project) : string :=
  "QuickAI_Project_" +:+ safeTitle p +:+ ".zip".

(** A lower-case ASCII letter, a digit or the underscore. *)
Definition isSafeChar (c : ascii) : bool :=
  let n := nat_of_ascii c in
  ((48 <=? n) && (n <=? 57)) || ((97 <=? n) && (n <=? 122)) || (n =? 95).

Definition isDigit (c : ascii) : bool :=
  let n := nat_of_ascii c in (48 <=? n) && (n <=? 57).

(** ** hooks/useHistoryState.ts

    [T] is a type of primitive values, as where the hook is used (strings):
    [===] is equality of values.  [undo] and [redo] are called in a render
    whose [canUndo] and [canRedo] are those of the state they update. *)

Record HistoryState (T : Type) := {
  past : list T;
  present : T;
  future : list T
}.

Arguments Build_HistoryState {T} _ _ _.
Arguments past {T} _.
Arguments present {T} _.
Arguments future {T} _.

Definition initialHistory {T : Type} (initialState : T) : HistoryState T :=
  {| past := []; present := initialState; future := [] |}.

Definition canUndo {T : Type} (h : HistoryState T) : bool :=
  bool_decide (0 < length (past h)).

Definition canRedo {T : Type} (h : HistoryState T) : bool :=
  bool_decide (0 < length (future h)).

(** [undo]: behind the guard the past is not empty, so
    [past[past.length - 1]] is defined. *)
Definition undo {T : Type} (h : HistoryState T) : HistoryState T :=
  if canUndo h then
    match past h !! (length (past h) - 1) with
    | Some previous =>
        {| past := take (length (past h) - 1) (past h);
           present := previous;
           future := present h :: future h |}
    | None => h
    end
  else h.

Definition redo {T : Type} (h : HistoryState T) : HistoryState T :=
  if canRedo h then
    match future h !! 0 with
    | Some next =>
        {| past := past h ++ [present h];
           present := next;
           future := drop 1 (future h) |}
    | None => h
    end
  else h.

(** [setState] with an updater function, and with a value. *)
Definition setStateWith {T : Type} `{EqDecision T} (update : T -> T)
    (h : HistoryState T) : HistoryState T :=
  let newPresent := update (present h) in
  if bool_decide (newPresent = present h) then h
  else {| past := past h ++ [present h]; present := newPresent; future := [] |}.

Definition setState {T : Type} `{EqDecision T} (newState : T)
    : HistoryState T -> HistoryState T :=
  setStateWith (fun _ => newState).

Definition resetState {T : Type} (newState : T) (_ : HistoryState T)
    : HistoryState T :=
  {| past := []; present := newState; future := [] |}.

(** Everything the history holds, oldest first. *)
Definition timeline {T : Type} (h : HistoryState T) : list T :=
  past h ++ present h :: future h.

Inductive HistoryAction (T : Type) :=
| DoUndo
| DoRedo
| DoSetState (newState : T)
| DoResetState (newState : T).

Arguments DoUndo {T}.
Arguments DoRedo {T}.
Arguments DoSetState {T} newState.
Arguments DoResetState {T} newState.

Definition applyAction {T : Type} `{EqDecision T} (h : HistoryState T)
    (a : HistoryAction T) : HistoryState T :=
  match a with
  | DoUndo => undo h
  | DoRedo => redo h
  | DoSetState x => setState x h
  | DoResetState x => resetState x h
  end.

Definition runActions {T : Type} `{EqDecision T} (h : HistoryState T)
    (actions : list (HistoryAction T)) : HistoryState T :=
  foldl applyAction h actions.

Definition noReset {T : Type} (a : HistoryAction T) : bool :=
  match a with DoResetState _ => false | _ => true end.

(** [undo] as often as it applies. *)
Definition undoAll {T : Type} (h : HistoryState T) : HistoryState T :=
  Nat.iter (length (past h)) undo h.

(** ** More sample inputs *)

Definition stored (p : Project) : StoredProject :=
  {| project := p; assets := []; lastModified := 0; lastActivePage := None |}.

(** The application with the sample projects, the first one open on the
    text page. *)
Definition sampleApp : App :=
  {| currentPage := PageText;
     projects := stored <$> sampleProjects;
     selectedProjectId := Some "p1" |}.

(** A provider that answers with one embedding fewer than there are
    texts, and one that answers with none. *)
Definition shortAi : Gemini :=
  {| batchEmbedContents := fun texts =>
       Some (imap (fun i _ => [float_of_nat (10 * i)])
               (take (length texts - 1) texts));
     generateContent := fun _ => Some "Some Title" |}.

Definition emptyAi : Gemini :=
  {| batchEmbedContents := fun _ => Some [];
     generateContent := fun _ => Some "Some Title" |}.

(** A provider whose embedding call fails. *)
Definition downAi : Gemini :=
  {| batchEmbedContents := fun _ => None;
     generateContent := fun _ => Some "Some Title" |}.

(** * Properties of the engine *)

Lemma validArrayLength (k : Z) :
  (0 <= k <= maxArrayLength)%Z -> invalidArrayLength k = false.
Proof.
  intros Hk. unfold invalidArrayLength.
  destruct (Z.ltb_spec k 0); [lia|].
  by destruct (Z.ltb_spec maxArrayLength k); [lia|].
Qed.

Lemma invalidArrayLength_spec (k : Z) :
  invalidArrayLength k = true <-> (k < 0 ∨ maxArrayLength < k)%Z.
Proof.
  unfold invalidArrayLength. rewrite orb_true_iff, !Z.ltb_lt. done.
Qed.

Lemma invalidArrayLength_false (k : Z) :
  invalidArrayLength k = false -> (0 <= k <= maxArrayLength)%Z.
Proof.
  unfold invalidArrayLength. rewrite orb_false_iff, !Z.ltb_ge. lia.
Qed.

Section Nearest.
Variable x : Vector.

Lemma nearest_range cs : forall j minDistance c,
  nearest x cs j minDistance c = c
  ∨ (j <= nearest x cs j minDistance c < j + length cs).
Proof.
  induction cs as [|c0 cs IH]; intros j m c; simpl; [by left|].
  destruct (squaredDistance x c0 <? m)%float.
  - destruct (IH (S j) (squaredDistance x c0) j) as [->|?]; right; lia.
  - destruct (IH (S j) m c) as [->|?]; [by left|right; lia].
Qed.

Lemma closest_range cs : closest cs x = 0 ∨ closest cs x < length cs.
Proof.
  unfold closest. destruct (nearest_range cs 0 infinity 0) as [->|?];
    [by left|right; lia].
Qed.

Lemma closest_lt cs n : 0 < n -> length cs <= n -> closest cs x < n.
Proof. intros ? ?. destruct (closest_range cs); lia. Qed.
End Nearest.

Lemma assignPoints_length cs data : forall asg,
  length asg = length data ->
  length (assignPoints cs data asg).1 = length data.
Proof.
  induction data as [|x data IH]; intros [|a asg] Hlen; simpl in *; try done.
  specialize (IH asg). destruct (assignPoints cs data asg) as [rest ch].
  simpl in *. f_equal. apply IH. lia.
Qed.

Lemma assignPoints_bound cs n data : forall asg,
  0 < n -> length cs <= n ->
  Forall (fun a => a < n) (assignPoints cs data asg).1.
Proof.
  induction data as [|x data IH]; intros [|a asg] Hn Hcs; simpl;
    try by constructor.
  specialize (IH asg Hn Hcs). destruct (assignPoints cs data asg) as [rest ch].
  simpl in *. constructor; [by apply closest_lt|done].
Qed.

Lemma accumulate_returns data : forall asg sums counts,
  Forall (fun a => a < length sums) asg ->
  exists sums' counts',
    accumulate data asg sums counts = Returned (sums', counts')
    ∧ length sums' = length sums ∧ length counts' = length counts.
Proof.
  induction data as [|x data IH]; intros [|a asg] sums counts Hall; simpl;
    try by eauto.
  apply Forall_cons in Hall as [Ha Hall].
  destruct (lookup_lt_is_Some_2 sums a Ha) as [acc ->].
  destruct (IH asg (<[a:=addInto acc x]> sums) (alter S a counts))
    as (sums' & counts' & -> & Hs & Hc).
  { by rewrite length_insert. }
  exists sums', counts'. rewrite Hs, Hc, length_insert, length_alter. done.
Qed.

Lemma finishCentroids_length rand data sums : forall counts t,
  length counts = length sums ->
  length (finishCentroids rand data sums counts t).1 = length sums.
Proof.
  induction sums as [|s sums IH]; intros [|c counts] t Hlen; simpl in *;
    try done.
  destruct (0 <? c).
  - specialize (IH counts t).
    destruct (finishCentroids rand data sums counts t). simpl in *.
    f_equal. apply IH. lia.
  - specialize (IH counts (S t)).
    destruct (finishCentroids rand data sums counts (S t)). simpl in *.
    f_equal. apply IH. lia.
Qed.

(** The loop invariant of [kmeans]: one label per point, every label an
    index of the [k] centroids the update step rebuilds. *)
Lemma iterate_invariant rand data k : forall maxIterations cs asg changed t,
  (1 <= k <= maxArrayLength)%Z ->
  length asg = length data ->
  Forall (fun a => a < Z.to_nat k) asg ->
  length cs <= Z.to_nat k ->
  exists r t',
    iterate maxIterations rand data k cs asg changed t = Returned (r, t')
    ∧ length (assignments r) = length data
    ∧ Forall (fun a => a < Z.to_nat k) (assignments r)
    ∧ length (centroids r) <= Z.to_nat k.
Proof.
  induction maxIterations as [|more IH]; intros cs asg changed t Hk Hlen Hall Hcs;
    simpl; [by eauto 10|].
  destruct changed; [|by eauto 10].
  pose proof (assignPoints_length cs data asg Hlen) as Hlen'.
  pose proof (assignPoints_bound cs (Z.to_nat k) data asg ltac:(lia) Hcs) as Hall'.
  destruct (assignPoints cs data asg) as [asg' changed']. simpl in *.
  rewrite validArrayLength by lia.
  destruct (accumulate_returns data asg'
              (replicate (Z.to_nat k) (replicate (length (default [] (head data))) 0%float))
              (replicate (Z.to_nat k) 0))
    as (sums & counts & -> & Hs & Hc).
  { by rewrite length_replicate. }
  rewrite length_replicate in Hs. rewrite length_replicate in Hc.
  pose proof (finishCentroids_length rand data sums counts t ltac:(lia)) as Hf.
  destruct (finishCentroids rand data sums counts t) as [cs' t']. simpl in *.
  apply IH; auto. lia.
Qed.

(** ** Initialisation *)

Lemma union_absorb_elem (used seen : gset nat) (i : nat) :
  i ∈ used -> used ∪ ({[i]} ∪ seen) = used ∪ seen.
Proof.
  intros Hi. apply set_eq. intros j.
  rewrite !elem_of_union, elem_of_singleton. naive_solver.
Qed.

Lemma union_move_elem (used seen : gset nat) (i : nat) :
  {[i]} ∪ used ∪ seen = used ∪ ({[i]} ∪ seen).
Proof.
  apply set_eq. intros j.
  rewrite !elem_of_union, elem_of_singleton. naive_solver.
Qed.

Section Initialisation.
Variables (rand : nat -> nat) (data : list Vector) (k : Z).

Lemma initializeLoop_length fuel : forall cs used t cs' t',
  initializeLoop fuel rand data k cs used t = Some (cs', t') ->
  length cs <= Z.to_nat k `min` length data ->
  length cs' = Z.to_nat k `min` length data.
Proof.
  induction fuel as [|fuel IH]; intros cs used t cs' t'; simpl;
    destruct (Z.ltb_spec (Z.of_nat (length cs)) k);
    destruct (Nat.ltb_spec (length cs) (length data)); simpl;
    intros Hrun Hle; try (injection Hrun as <- <-; lia); try done.
  destruct (decide (randomIndex rand t data ∈ used)).
  - by apply IH in Hrun.
  - apply IH in Hrun; [done|]. rewrite length_app. simpl. lia.
Qed.

Lemma initializeLoop_more_fuel fuel : forall fuel' cs used t r,
  initializeLoop fuel rand data k cs used t = Some r ->
  fuel <= fuel' ->
  initializeLoop fuel' rand data k cs used t = Some r.
Proof.
  induction fuel as [|fuel IH]; intros [|fuel'] cs used t r; simpl;
    destruct ((Z.of_nat (length cs) <? k)%Z && (length cs <? length data));
    intros Hrun Hle; try done; try lia.
  destruct (decide (randomIndex rand t data ∈ used));
    apply IH; auto; lia.
Qed.

Lemma drawsSeen_S t m :
  drawsSeen rand t data (S m)
  = {[randomIndex rand t data]} ∪ drawsSeen rand (S t) data m.
Proof.
  unfold drawsSeen. simpl. rewrite Nat.add_0_r. f_equal.
  rewrite <- seq_shift, map_map. f_equal. apply map_ext. intros i.
  by rewrite Nat.add_succ_r.
Qed.

Lemma initializeLoop_terminates m : forall cs used t,
  length cs = size used ->
  (k <= Z.of_nat (size (used ∪ drawsSeen rand t data m)))%Z
  ∨ length data <= size (used ∪ drawsSeen rand t data m) ->
  is_Some (initializeLoop m rand data k cs used t).
Proof.
  induction m as [|m IH]; intros cs used t Hsize Hseen; simpl;
    destruct (Z.ltb_spec (Z.of_nat (length cs)) k);
    destruct (Nat.ltb_spec (length cs) (length data)); simpl; try by eauto.
  - exfalso. unfold drawsSeen in Hseen. simpl in Hseen.
    rewrite (right_id_L ∅ (∪)) in Hseen. lia.
  - rewrite drawsSeen_S in Hseen.
    destruct (decide (randomIndex rand t data ∈ used)) as [Hin|Hout].
    + apply IH; [done|]. by rewrite union_absorb_elem in Hseen.
    + apply IH.
      * rewrite length_app, size_union, size_singleton
          by (by apply disjoint_singleton_l).
        simpl. lia.
      * by rewrite union_move_elem.
Qed.

Lemma initializeCentroids_terminates t m fuel :
  enoughDraws rand t data k m -> m <= fuel ->
  exists cs t',
    initializeCentroids fuel rand t data k = Some (cs, t')
    ∧ length cs = Z.to_nat k `min` length data.
Proof.
  intros Hm Hfuel. unfold initializeCentroids.
  destruct (initializeLoop_terminates m [] ∅ t) as [[cs t'] Hrun].
  - by rewrite size_empty.
  - by rewrite (left_id_L ∅ (∪)).
  - exists cs, t'. split.
    + by apply initializeLoop_more_fuel with m.
    + apply initializeLoop_length in Hrun; [done|simpl; lia].
Qed.
End Initialisation.

(** ** The result of [kmeans] *)

Lemma kmeans_returns_in_range fuel rand t data k maxIterations cs t0 :
  (1 <= k <= maxArrayLength)%Z -> data <> [] ->
  initializeCentroids fuel rand t data k = Some (cs, t0) ->
  exists r t',
    kmeans fuel rand t data k maxIterations = Returned (r, t')
    ∧ length (assignments r) = length data
    ∧ Forall (fun a => a < Z.to_nat k) (assignments r).
Proof.
  intros Hk Hdata Hinit. unfold kmeans. rewrite Hinit.
  destruct data as [|x data]; [done|].
  destruct (Z.eqb_spec k 0); [lia|]. simpl orb. cbv iota.
  destruct (iterate_invariant rand (x :: data) k maxIterations cs
              (replicate (length (x :: data)) 0) true t0)
    as (r & t' & Hrun & Hlen & Hall & _); auto.
  - by rewrite length_replicate.
  - apply Forall_replicate. lia.
  - apply initializeLoop_length in Hinit; simpl in *; lia.
  - eauto.
Qed.

Lemma kmeans_labels_safe fuel rand t data k maxIterations :
  (1 <= k <= maxArrayLength)%Z -> data <> [] ->
  match kmeans fuel rand t data k maxIterations with
  | Returned (r, _) =>
      length (assignments r) = length data
      ∧ Forall (fun a => (0 <= Z.of_nat a < k)%Z) (assignments r)
  | Threw _ => False
  | Unfinished => True
  end.
Proof.
  intros Hk Hdata.
  destruct (initializeCentroids fuel rand t data k) as [[cs t0]|] eqn:Hinit.
  - destruct (kmeans_returns_in_range fuel rand t data k maxIterations cs t0)
      as (r & t' & -> & Hlen & Hall); auto.
    split; [done|]. eapply Forall_impl; [exact Hall|].
    intros a Ha. cbn beta in Ha. lia.
  - unfold kmeans. rewrite Hinit.
    destruct data; [done|]. by destruct (Z.eqb_spec k 0); [lia|].
Qed.

Lemma kmeans_returns_with_enough_draws fuel m rand t data k maxIterations :
  (1 <= k <= maxArrayLength)%Z -> data <> [] ->
  enoughDraws rand t data k m -> m <= fuel ->
  exists r t',
    kmeans fuel rand t data k maxIterations = Returned (r, t')
    ∧ length (assignments r) = length data
    ∧ Forall (fun a => (0 <= Z.of_nat a < k)%Z) (assignments r).
Proof.
  intros Hk Hdata Hm Hfuel.
  destruct (initializeCentroids_terminates rand data k t m fuel Hm Hfuel)
    as (cs & t0 & Hinit & _).
  destruct (kmeans_returns_in_range fuel rand t data k maxIterations cs t0)
    as (r & t' & Hrun & Hlen & Hall); auto.
  exists r, t'. split; [done|]. split; [done|].
  eapply Forall_impl; [exact Hall|]. intros a Ha. cbn beta in Ha. lia.
Qed.

Lemma kmeans_trivial_input fuel rand t data k maxIterations :
  data = [] ∨ k = 0%Z ->
  kmeans fuel rand t data k maxIterations
  = Returned ({| assignments := []; centroids := [] |}, t).
Proof.
  unfold kmeans. intros [->| ->]; [done|]. by rewrite orb_true_r.
Qed.

(** C3, as the code has it: for every k from 1 to 2^32 - 1, the largest
    length of an array, and every non-empty list of vectors, kmeans never
    throws; whenever it returns, the assignments array has one entry per
    input vector and every entry lies in [0, k); and it does return as soon
    as the random source has produced enough distinct indices for the
    initialisation.  Nothing here depends on which clusters are empty, nor on
    the vectors having equal dimensions. *)
Theorem kmeans_assignments_in_range rand t data k maxIterations :
  (1 <= k <= maxArrayLength)%Z -> data <> [] ->
  (forall fuel,
     match kmeans fuel rand t data k maxIterations with
     | Returned (r, _) =>
         length (assignments r) = length data
         ∧ Forall (fun a => (0 <= Z.of_nat a < k)%Z) (assignments r)
     | Threw _ => False
     | Unfinished => True
     end)
  ∧ (forall m fuel, enoughDraws rand t data k m -> m <= fuel ->
       exists r t',
         kmeans fuel rand t data k maxIterations = Returned (r, t')
         ∧ length (assignments r) = length data
         ∧ Forall (fun a => (0 <= Z.of_nat a < k)%Z) (assignments r)).
Proof.
  intros Hk Hdata. split.
  - intros fuel. by apply kmeans_labels_safe.
  - intros m fuel Hm Hfuel. by apply kmeans_returns_with_enough_draws with m.
Qed.

Lemma kmeans_assignments_in_range_witness :
  exists r t',
    kmeans 2 (fun i => i) 0 sepData 2 defaultMaxIterations = Returned (r, t')
    ∧ length (assignments r) = length sepData
    ∧ Forall (fun a => (0 <= Z.of_nat a < 2)%Z) (assignments r).
Proof.
  apply (proj2 (kmeans_assignments_in_range (fun i => i) 0 sepData 2
                  defaultMaxIterations ltac:(unfold maxArrayLength; lia)
                  ltac:(discriminate)) 2 2).
  - left. vm_compute. discriminate.
  - lia.
Defined.

(** C3, counterexample: one vector and k = 2^32.  The initialisation picks
    the vector, the first assignment pass labels it 0, and
    [Array.from({ length: k }, ...)] throws. *)
Lemma kmeans_throws_above_array_length :
  (1 <= 4294967296)%Z
  ∧ kmeans 1 (fun i => i) 0 [[1%float]] 4294967296 defaultMaxIterations
    = Threw RangeError.
Proof. split; [lia|vm_compute; reflexivity]. Qed.

(** C10: called with an empty data array or with k = 0, kmeans returns
    { assignments: [], centroids: [] } and signals no error; in particular,
    for a non-empty data array and k = 0 the assignments array has length
    zero, not the input length. *)
Theorem kmeans_empty_or_zero fuel rand t data k maxIterations :
  data = [] ∨ k = 0%Z ->
  kmeans fuel rand t data k maxIterations
  = Returned ({| assignments := []; centroids := [] |}, t)
  ∧ (data <> [] ->
     exists r t',
       kmeans fuel rand t data k maxIterations = Returned (r, t')
       ∧ length (assignments r) = 0
       ∧ length (assignments r) <> length data).
Proof.
  intros Hcase.
  pose proof (kmeans_trivial_input fuel rand t data k maxIterations Hcase)
    as Hrun.
  split; [done|]. intros Hdata. eexists _, _. split; [exact Hrun|].
  simpl. split; [done|]. by destruct data.
Qed.

Lemma kmeans_empty_or_zero_witness :
  kmeans 0 (fun i => i) 7 sepData 0 defaultMaxIterations
  = Returned ({| assignments := []; centroids := [] |}, 7)
  ∧ (sepData <> [] ->
     exists r t',
       kmeans 0 (fun i => i) 7 sepData 0 defaultMaxIterations = Returned (r, t')
       ∧ length (assignments r) = 0
       ∧ length (assignments r) <> length sepData).
Proof.
  apply (kmeans_empty_or_zero 0 (fun i => i) 7 sepData 0 defaultMaxIterations).
  right. reflexivity.
Defined.

(** ** How many centroids the engine works with *)

Lemma iterate_centroids_length rand data k :
  forall maxIterations cs asg changed t r t',
  (1 <= k <= maxArrayLength)%Z ->
  length asg = length data ->
  Forall (fun a => a < Z.to_nat k) asg ->
  length cs <= Z.to_nat k ->
  length cs = Z.to_nat k ∨ (0 < maxIterations ∧ changed = true) ->
  iterate maxIterations rand data k cs asg changed t = Returned (r, t') ->
  length (centroids r) = Z.to_nat k.
Proof.
  induction maxIterations as [|more IH];
    intros cs asg changed t r t' Hk Hlen Hall Hcs Hcase; simpl.
  { intros [= <- <-]. simpl. destruct Hcase as [?|[? _]]; [done|lia]. }
  destruct changed.
  2:{ intros [= <- <-]. simpl. by destruct Hcase as [?|[_ ?]]. }
  pose proof (assignPoints_length cs data asg Hlen) as Hlen'.
  pose proof (assignPoints_bound cs (Z.to_nat k) data asg ltac:(lia) Hcs) as Hall'.
  destruct (assignPoints cs data asg) as [asg' changed']. simpl in *.
  rewrite validArrayLength by lia.
  destruct (accumulate_returns data asg'
              (replicate (Z.to_nat k) (replicate (length (default [] (head data))) 0%float))
              (replicate (Z.to_nat k) 0))
    as (sums & counts & -> & Hs & Hc).
  { by rewrite length_replicate. }
  rewrite length_replicate in Hs. rewrite length_replicate in Hc.
  pose proof (finishCentroids_length rand data sums counts t ltac:(lia)) as Hf.
  destruct (finishCentroids rand data sums counts t) as [cs' t0]. simpl in *.
  apply IH; auto; lia.
Qed.

(** C7, as the code has it: the initialisation yields min(k, data.length)
    centroids (the bound is the number of vectors, equal or not), and only
    the first assignment pass works with them; every update step rebuilds
    exactly k centroids, so for k from 1 to 2^32 - 1 (a length an array can
    have), non-empty data and at least one iteration, kmeans returns k
    centroids. *)
Theorem kmeans_centroid_count fuel m rand t data k maxIterations :
  (1 <= k <= maxArrayLength)%Z -> data <> [] ->
  enoughDraws rand t data k m -> m <= fuel ->
  exists cs t0 r t',
    initializeCentroids fuel rand t data k = Some (cs, t0)
    ∧ length cs = Z.to_nat k `min` length data
    ∧ kmeans fuel rand t data k maxIterations = Returned (r, t')
    ∧ (0 < maxIterations -> length (centroids r) = Z.to_nat k)
    ∧ (maxIterations = 0 -> centroids r = cs).
Proof.
  intros Hk Hdata Hm Hfuel.
  destruct (initializeCentroids_terminates rand data k t m fuel Hm Hfuel)
    as (cs & t0 & Hinit & Hcs).
  destruct (kmeans_returns_in_range fuel rand t data k maxIterations cs t0)
    as (r & t' & Hrun & _); auto.
  exists cs, t0, r, t'. repeat split; try done.
  - intros Hmax. unfold kmeans in Hrun. rewrite Hinit in Hrun.
    destruct data as [|x data]; [done|].
    destruct (Z.eqb_spec k 0); [lia|]. simpl orb in Hrun. cbv iota in Hrun.
    eapply iterate_centroids_length; [..|exact Hrun]; auto.
    + by rewrite length_replicate.
    + apply Forall_replicate. lia.
    + lia.
  - intros ->. unfold kmeans in Hrun. rewrite Hinit in Hrun.
    destruct data as [|x data]; [done|].
    destruct (Z.eqb_spec k 0); [lia|]. simpl in Hrun.
    by injection Hrun as <- <-.
Qed.

Lemma kmeans_centroid_count_witness :
  exists cs t0 r t',
    initializeCentroids 1 (fun i => i) 0 [[1%float]] 3 = Some (cs, t0)
    ∧ length cs = Z.to_nat 3 `min` length [[1%float]]
    ∧ kmeans 1 (fun i => i) 0 [[1%float]] 3 defaultMaxIterations
      = Returned (r, t')
    ∧ (0 < defaultMaxIterations -> length (centroids r) = Z.to_nat 3)
    ∧ (defaultMaxIterations = 0 -> centroids r = cs).
Proof.
  apply (kmeans_centroid_count 1 1 (fun i => i) 0 [[1%float]] 3
           defaultMaxIterations).
  - unfold maxArrayLength. lia.
  - discriminate.
  - right. vm_compute. lia.
  - lia.
Defined.

(** C7, counterexample: one input vector and k = 3.  The initialisation is
    cut down to one centroid, yet the engine returns three. *)
Lemma kmeans_returns_k_centroids_not_clamped :
  initializeCentroids 1 (fun i => i) 0 [[1%float]] 3 = Some ([[1%float]], 1)
  ∧ kmeans 1 (fun i => i) 0 [[1%float]] 3 defaultMaxIterations
    = Returned ({| assignments := [0];
                   centroids := [[1]; [1]; [1]]%float |}, 3)
  ∧ length [[1]; [1]; [1]]%float <> Z.to_nat 3 `min` length [[1%float]].
Proof. split; [|split]; [vm_compute; reflexivity..|vm_compute; lia]. Qed.

(** ** Failure modes *)

Lemma kmeans_negative_k fuel rand t data k maxIterations :
  (k < 0)%Z -> data <> [] -> 0 < maxIterations ->
  kmeans fuel rand t data k maxIterations = Threw RangeError.
Proof.
  intros Hk Hdata Hmax. unfold kmeans, initializeCentroids.
  destruct data as [|x data]; [done|].
  destruct (Z.eqb_spec k 0); [lia|]. simpl orb. cbv iota.
  assert (Hinit : forall used,
             initializeLoop fuel rand (x :: data) k [] used t = Some ([], t)).
  { intros used. destruct fuel; simpl;
      by destruct (Z.ltb_spec (Z.of_nat 0) k); [lia|]. }
  rewrite Hinit. destruct maxIterations as [|more]; [lia|].
  cbn [iterate].
  destruct (assignPoints [] (x :: data) (replicate (length (x :: data)) 0)).
  by rewrite (proj2 (invalidArrayLength_spec k)) by lia.
Qed.

(** With a [k] that is no array length, a run that gets past the
    initialisation throws in its first iteration, and a run throws nothing
    else. *)
Lemma kmeans_invalid_k fuel rand t data k maxIterations :
  invalidArrayLength k = true -> data <> [] ->
  match kmeans fuel rand t data k maxIterations with
  | Returned _ => maxIterations = 0
  | Threw e => e = RangeError ∧ 0 < maxIterations
  | Unfinished => initializeCentroids fuel rand t data k = None
  end.
Proof.
  intros Hk Hdata. unfold kmeans.
  destruct data as [|x data]; [done|].
  assert (Hk0 : k <> 0%Z).
  { intros ->. by vm_compute in Hk. }
  destruct (Z.eqb_spec k 0); [done|]. simpl orb. cbv iota.
  destruct (initializeCentroids fuel rand t (x :: data) k) as [[cs t0]|];
    [|done].
  destruct maxIterations as [|more]; [done|].
  cbn [iterate].
  destruct (assignPoints cs (x :: data) (replicate (length (x :: data)) 0)).
  rewrite Hk. split; [done|lia].
Qed.

(** C6, as the code has it: kmeans validates nothing and has neither a
    DimensionMismatch nor an InvalidK failure.  For every k from 0 to
    2^32 - 1 and every list of vectors, of one dimensionality or not, it
    never throws, and it returns once the initialisation has drawn enough
    distinct indices.  Its one failure is the RangeError raised in the first
    iteration when k is no length an array can have: by [new Array(k)] when k
    is negative, by [Array.from({ length: k }, ...)] when k is 2^32 or
    more. *)
Theorem kmeans_failure_modes fuel rand t data k maxIterations :
  (forall e, kmeans fuel rand t data k maxIterations = Threw e ->
     e = RangeError ∧ (k < 0 ∨ maxArrayLength < k)%Z
     ∧ data <> [] ∧ 0 < maxIterations)
  ∧ ((k < 0)%Z ∧ data <> [] ∧ 0 < maxIterations ->
     kmeans fuel rand t data k maxIterations = Threw RangeError)
  ∧ (forall m, (maxArrayLength < k)%Z ∧ data <> [] ∧ 0 < maxIterations ->
       enoughDraws rand t data k m -> m <= fuel ->
       kmeans fuel rand t data k maxIterations = Threw RangeError)
  ∧ (forall m, (0 <= k <= maxArrayLength)%Z ->
       enoughDraws rand t data k m -> m <= fuel ->
       exists r t', kmeans fuel rand t data k maxIterations = Returned (r, t')).
Proof.
  assert (Hzero : data = [] ∨ k = 0%Z ->
            kmeans fuel rand t data k maxIterations
            = Returned ({| assignments := []; centroids := [] |}, t)).
  { apply kmeans_trivial_input. }
  split_and!.
  - intros e Hthrew.
    destruct (decide (data = [])) as [->|Hdata].
    { rewrite Hzero in Hthrew by auto. done. }
    destruct (decide (k = 0%Z)) as [->|Hk0].
    { rewrite Hzero in Hthrew by auto. done. }
    destruct (invalidArrayLength k) eqn:Hk.
    + pose proof (kmeans_invalid_k fuel rand t data k maxIterations Hk Hdata)
        as Hcase.
      rewrite Hthrew in Hcase. destruct Hcase as [-> Hmax].
      apply invalidArrayLength_spec in Hk. done.
    + assert (Hrange : (1 <= k <= maxArrayLength)%Z).
      { destruct (Z.lt_ge_cases k 0) as [Hneg|Hpos].
        - rewrite (proj2 (invalidArrayLength_spec k)) in Hk by lia. done.
        - destruct (Z.lt_ge_cases maxArrayLength k) as [Hbig|Hsmall]; [|lia].
          rewrite (proj2 (invalidArrayLength_spec k)) in Hk by lia. done. }
      pose proof (kmeans_labels_safe fuel rand t data k maxIterations
                    Hrange Hdata) as Hsafe.
      by rewrite Hthrew in Hsafe.
  - intros (Hk & Hdata & Hmax). by apply kmeans_negative_k.
  - intros m (Hk & Hdata & Hmax) Hm Hfuel.
    destruct (initializeCentroids_terminates rand data k t m fuel Hm Hfuel)
      as (cs & t0 & Hinit & _).
    pose proof (kmeans_invalid_k fuel rand t data k maxIterations
                  (proj2 (invalidArrayLength_spec k) (or_intror Hk)) Hdata)
      as Hcase.
    destruct (kmeans fuel rand t data k maxIterations) as [[r t']|e|].
    + lia.
    + by destruct Hcase as [-> _].
    + by rewrite Hinit in Hcase.
  - intros m Hk Hm Hfuel.
    destruct (decide (data = [])) as [->|Hdata]; [rewrite Hzero; eauto|].
    destruct (decide (k = 0%Z)) as [->|Hk0]; [rewrite Hzero; eauto|].
    destruct (kmeans_returns_with_enough_draws fuel m rand t data k
                maxIterations ltac:(lia) Hdata Hm Hfuel)
      as (r & t' & Hrun & _).
    eauto.
Qed.

(** C6, counterexample: vectors of dimensions 1 and 2 are clustered without
    any failure (the missing coordinate shows up as NaN in the centroid),
    and k = 0 returns the empty result instead of failing. *)
Lemma kmeans_accepts_malformed_input :
  kmeans 1 (fun i => i) 0 [[0]; [1; 2]]%float 1 defaultMaxIterations
  = Returned ({| assignments := [0; 0];
                 centroids := [[0.5; nan]]%float |}, 1)
  ∧ kmeans 1 (fun i => i) 0 [[0]; [1; 2]]%float 0 defaultMaxIterations
    = Returned ({| assignments := []; centroids := [] |}, 0).
Proof. split; vm_compute; reflexivity. Qed.

Example kmeans_negative_k_example :
  kmeans 0 (fun i => i) 0 [[0]; [1]]%float (-1) defaultMaxIterations
  = Threw RangeError.
Proof. vm_compute. reflexivity. Qed.

(** With zero iterations no array of length k is built: a k above the
    largest array length returns the initial centroids. *)
Example kmeans_huge_k_without_iteration :
  kmeans 2 (fun i => i) 0 [[0]; [1]]%float 4294967296 0
  = Returned ({| assignments := [0; 0]; centroids := [[0]; [1]]%float |}, 2).
Proof. vm_compute. reflexivity. Qed.

(** Degenerate but well-formed input: three identical vectors, k = 2. *)
Example kmeans_identical_vectors :
  kmeans 2 (fun i => i) 0 [[3]; [3]; [3]]%float 2 defaultMaxIterations
  = Returned ({| assignments := [0; 0; 0];
                 centroids := [[3]; [3]]%float |}, 3).
Proof. vm_compute. reflexivity. Qed.

Lemma kmeans_failure_modes_witness :
  exists r t',
    kmeans 1 (fun i => i) 0 [[0]; [1; 2]]%float 1 defaultMaxIterations
    = Returned (r, t').
Proof.
  apply (proj2 (proj2 (proj2 (kmeans_failure_modes 1 (fun i => i) 0
                                [[0]; [1; 2]]%float 1 defaultMaxIterations))) 1).
  - unfold maxArrayLength. lia.
  - left. vm_compute. discriminate.
  - lia.
Defined.

(** ** Dependence on the random source *)

Section SameDraws.
Variables (rand1 rand2 : nat -> nat) (data : list Vector) (k : Z).

Lemma agreeFrom_shift t1 t2 d :
  agreeFrom rand1 rand2 t1 t2 -> agreeFrom rand1 rand2 (t1 + d) (t2 + d).
Proof.
  intros H i. rewrite <- !Nat.add_assoc. apply H.
Qed.

Lemma agreeFrom_index t1 t2 :
  agreeFrom rand1 rand2 t1 t2 ->
  randomIndex rand1 t1 data = randomIndex rand2 t2 data.
Proof.
  intros H. unfold randomIndex. specialize (H 0).
  rewrite !Nat.add_0_r in H. by rewrite H.
Qed.

Lemma agreeFrom_S t1 t2 :
  agreeFrom rand1 rand2 t1 t2 -> agreeFrom rand1 rand2 (S t1) (S t2).
Proof.
  intros H i. specialize (H (S i)). by rewrite !Nat.add_succ_r in H.
Qed.

Lemma initializeLoop_same_draws fuel : forall cs used t1 t2,
  agreeFrom rand1 rand2 t1 t2 ->
  match initializeLoop fuel rand1 data k cs used t1,
        initializeLoop fuel rand2 data k cs used t2 with
  | Some (c1, u1), Some (c2, u2) =>
      c1 = c2 ∧ exists d, u1 = t1 + d ∧ u2 = t2 + d
  | None, None => True
  | _, _ => False
  end.
Proof.
  induction fuel as [|fuel IH]; intros cs used t1 t2 Hagree; simpl;
    destruct ((Z.of_nat (length cs) <? k)%Z && (length cs <? length data));
    try done; try (split; [done|exists 0; lia]).
  rewrite <- (agreeFrom_index t1 t2 Hagree).
  assert (Hstep : forall cs' used',
    match initializeLoop fuel rand1 data k cs' used' (S t1),
          initializeLoop fuel rand2 data k cs' used' (S t2) with
    | Some (c1, u1), Some (c2, u2) =>
        c1 = c2 ∧ exists d, u1 = t1 + d ∧ u2 = t2 + d
    | None, None => True
    | _, _ => False
    end).
  { intros cs' used'.
    specialize (IH cs' used' (S t1) (S t2) (agreeFrom_S _ _ Hagree)).
    destruct (initializeLoop fuel rand1 data k cs' used' (S t1)) as [[c1 u1]|],
             (initializeLoop fuel rand2 data k cs' used' (S t2)) as [[c2 u2]|];
      try done.
    destruct IH as [-> [d [-> ->]]]. split; [done|]. exists (S d). lia. }
  destruct (decide (randomIndex rand1 t1 data ∈ used)); apply Hstep.
Qed.

Lemma finishCentroids_same_draws sums : forall counts t1 t2,
  agreeFrom rand1 rand2 t1 t2 ->
  (finishCentroids rand1 data sums counts t1).1
  = (finishCentroids rand2 data sums counts t2).1
  ∧ exists d, (finishCentroids rand1 data sums counts t1).2 = t1 + d
              ∧ (finishCentroids rand2 data sums counts t2).2 = t2 + d.
Proof.
  induction sums as [|s sums IH]; intros [|c counts] t1 t2 Hagree; simpl;
    try (split; [done|exists 0; lia]).
  destruct (0 <? c).
  - destruct (IH counts t1 t2 Hagree) as [Hcs [d [Hd1 Hd2]]].
    destruct (finishCentroids rand1 data sums counts t1),
             (finishCentroids rand2 data sums counts t2).
    simpl in *. subst. split; [done|]. by exists d.
  - destruct (IH counts (S t1) (S t2) (agreeFrom_S _ _ Hagree))
      as [Hcs [d [Hd1 Hd2]]].
    rewrite (agreeFrom_index t1 t2 Hagree).
    destruct (finishCentroids rand1 data sums counts (S t1)),
             (finishCentroids rand2 data sums counts (S t2)).
    simpl in *. subst. split; [done|]. exists (S d). lia.
Qed.

Lemma iterate_same_draws maxIterations : forall cs asg changed t1 t2,
  agreeFrom rand1 rand2 t1 t2 ->
  dropPosition (iterate maxIterations rand1 data k cs asg changed t1)
  = dropPosition (iterate maxIterations rand2 data k cs asg changed t2).
Proof.
  induction maxIterations as [|more IH]; intros cs asg changed t1 t2 Hagree;
    simpl; [done|].
  destruct changed; [|done].
  destruct (assignPoints cs data asg) as [asg' changed'].
  destruct (invalidArrayLength k); [done|].
  destruct (accumulate data asg' _ _) as [[sums counts]|e|]; try done.
  destruct (finishCentroids_same_draws sums counts t1 t2 Hagree)
    as [Hcs [d [Hd1 Hd2]]].
  destruct (finishCentroids rand1 data sums counts t1) as [cs1 u1],
           (finishCentroids rand2 data sums counts t2) as [cs2 u2].
  simpl in *. subst. apply IH. by apply agreeFrom_shift.
Qed.
End SameDraws.

(** C5, as the code has it: kmeans takes no random source and no seed, it
    reads the ambient [Math.random].  Two runs on the same input give the
    same assignments and the same centroids whenever [Math.random] hands
    both runs the same sequence of draws. *)
Theorem kmeans_same_draws fuel rand1 rand2 t1 t2 data k maxIterations :
  agreeFrom rand1 rand2 t1 t2 ->
  dropPosition (kmeans fuel rand1 t1 data k maxIterations)
  = dropPosition (kmeans fuel rand2 t2 data k maxIterations).
Proof.
  intros Hagree. unfold kmeans, initializeCentroids.
  destruct ((length data =? 0) || (k =? 0)%Z); [done|].
  pose proof (initializeLoop_same_draws rand1 rand2 data k fuel [] ∅ t1 t2 Hagree)
    as Hinit.
  destruct (initializeLoop fuel rand1 data k [] ∅ t1) as [[c1 u1]|],
           (initializeLoop fuel rand2 data k [] ∅ t2) as [[c2 u2]|]; try done.
  destruct Hinit as [-> [d [-> ->]]].
  apply iterate_same_draws. by apply agreeFrom_shift.
Qed.

Lemma kmeans_same_draws_witness :
  dropPosition (kmeans 4 alternatingDraws 0 [[0]; [10]]%float 2 defaultMaxIterations)
  = dropPosition (kmeans 4 alternatingDraws 4 [[0]; [10]]%float 2 defaultMaxIterations).
Proof.
  apply (kmeans_same_draws 4 alternatingDraws alternatingDraws 0 4).
  intros i. unfold alternatingDraws.
  replace (4 + i) with (0 + i + 1 * 4) by lia.
  by rewrite Nat.Div0.mod_add.
Defined.

(** C5, counterexample: the same call made twice in a row.  The second run
    starts where the first left [Math.random], draws the two indices in the
    other order, and returns the opposite labelling and swapped centroids. *)
Lemma kmeans_repeated_run_differs :
  kmeans 4 alternatingDraws 0 [[0]; [10]]%float 2 defaultMaxIterations
  = Returned ({| assignments := [0; 1]; centroids := [[0]; [10]]%float |}, 2)
  ∧ kmeans 4 alternatingDraws 2 [[0]; [10]]%float 2 defaultMaxIterations
    = Returned ({| assignments := [1; 0]; centroids := [[10]; [0]]%float |}, 4).
Proof. split; vm_compute; reflexivity. Qed.

(** C4, failing input: the separation data set with k = 2 and draws that
    pick the indices 0 and 1.  Both initial centroids are [0, 0], every
    point ties and goes to centroid 0, which is what [assignments] was
    pre-filled with: [changed] stays false, the update step re-seeds the
    empty cluster 1, and the loop exits without another assignment pass.
    All four points end in cluster 0. *)
Theorem kmeans_separation_fails_on_twin_start :
  kmeans 2 (fun i => i) 0 sepData 2 defaultMaxIterations
  = Returned ({| assignments := [0; 0; 0; 0];
                 centroids := [[5; 5]; [10; 10]]%float |}, 3).
Proof. vm_compute. reflexivity. Qed.

(** With one initial centroid from each group the same call separates the
    groups. *)
Example kmeans_separation_on_mixed_start :
  kmeans 2 (fun i => 2 * i) 0 sepData 2 defaultMaxIterations
  = Returned ({| assignments := [0; 0; 1; 1];
                 centroids := [[0; 0]; [10; 10]]%float |}, 2).
Proof. vm_compute. reflexivity. Qed.

Section Separation.
Variable rand : nat -> nat.

Lemma sepData_second_centroid fuel : forall i used t cs t',
  i ∈ used ->
  initializeLoop fuel rand sepData 2 [pick sepData i] used t = Some (cs, t') ->
  exists j, j < 4 ∧ j <> i ∧ cs = [pick sepData i; pick sepData j].
Proof.
  induction fuel as [|fuel IH]; intros i used t cs t' Hi; [done|].
  cbn [initializeLoop length]. 
  change ((Z.of_nat 1 <? 2)%Z && (1 <? length sepData)) with true. cbv iota.
  destruct (decide (randomIndex rand t sepData ∈ used)) as [Hin|Hout].
  - by apply IH.
  - intros Hrun. exists (randomIndex rand t sepData).
    split; [apply Nat.mod_upper_bound; discriminate|].
    split; [intros Heq; by rewrite Heq in Hout|].
    destruct fuel; simpl in Hrun; by injection Hrun as <- <-.
Qed.

Lemma sepData_initial_centroids fuel : forall t cs t',
  initializeCentroids fuel rand t sepData 2 = Some (cs, t') ->
  exists i j,
    i < 4 ∧ j < 4 ∧ i <> j ∧ cs = [pick sepData i; pick sepData j].
Proof.
  unfold initializeCentroids.
  induction fuel as [|fuel IH]; intros t cs t'; [done|].
  cbn [initializeLoop length].
  change ((Z.of_nat 0 <? 2)%Z && (0 <? length sepData)) with true. cbv iota.
  destruct (decide (randomIndex rand t sepData ∈ (∅ : gset nat))) as [Hin|_].
  { by apply not_elem_of_empty in Hin. }
  intros Hrun.
  apply sepData_second_centroid in Hrun as (j & Hj & Hne & ->).
  - exists (randomIndex rand t sepData), j.
    split; [apply Nat.mod_upper_bound; discriminate|]. auto.
  - apply elem_of_union_l. by apply elem_of_singleton.
Qed.

Lemma sepData_iterate i j t :
  i < 4 -> j < 4 -> i <> j ->
  labelsOf (iterate defaultMaxIterations rand sepData 2
              [pick sepData i; pick sepData j] (replicate 4 0) true t)
  = Some (sepLabels i j).
Proof.
  intros Hi Hj Hne.
  destruct i as [|[|[|[|i]]]]; try lia;
    destruct j as [|[|[|[|j]]]]; try lia; try done;
    vm_compute; reflexivity.
Qed.
End Separation.

(** What the engine does on the separation data set for every random
    source: the labelling is decided by the two indices the initialisation
    drew, and the groups come apart exactly when those indices belong to
    different groups. *)
Lemma kmeans_sepData_labels fuel rand t r t' :
  kmeans fuel rand t sepData 2 defaultMaxIterations = Returned (r, t') ->
  exists i j,
    i < 4 ∧ j < 4 ∧ i <> j
    ∧ (exists t0, initializeCentroids fuel rand t sepData 2
                  = Some ([pick sepData i; pick sepData j], t0))
    ∧ assignments r = sepLabels i j.
Proof.
  unfold kmeans.
  change ((length sepData =? 0) || (2 =? 0)%Z) with false. cbv iota.
  destruct (initializeCentroids fuel rand t sepData 2) as [[cs t0]|] eqn:Hinit;
    [|done].
  destruct (sepData_initial_centroids rand fuel t cs t0 Hinit)
    as (i & j & Hi & Hj & Hne & ->).
  intros Hrun. exists i, j. repeat split; try done; [by exists t0|].
  pose proof (sepData_iterate rand i j t0 Hi Hj Hne) as Hlabels.
  change (replicate 4 0) with (replicate (length sepData) 0) in Hlabels.
  rewrite Hrun in Hlabels. by injection Hlabels.
Qed.

(** * Properties of the pipeline *)

(** C8, as the code has it: a project is kept for clustering exactly when
    one of the three prompt fields the filter reads, text, image and tts, is
    non-empty; the title and the video prompt are not read.  The kept
    projects are the projects of the list that pass this test, each as often
    as it occurs and in the original order. *)
Theorem eligible_projects_filter (projects : list Project) :
  (forall p,
     p ∈ projectsWithPrompts projects
     <-> p ∈ projects
         ∧ (text (prompts p) <> EmptyString
            ∨ image (prompts p) <> EmptyString
            ∨ tts (prompts p) <> EmptyString))
  ∧ sublist (projectsWithPrompts projects) projects
  ∧ projectsWithPrompts projects
    = filter (fun p => text (prompts p) <> EmptyString
                       ∨ image (prompts p) <> EmptyString
                       ∨ tts (prompts p) <> EmptyString) projects.
Proof.
  assert (Htest : forall p,
            hasPrompts p = true
            <-> text (prompts p) <> EmptyString
                ∨ image (prompts p) <> EmptyString
                ∨ tts (prompts p) <> EmptyString).
  { intros p. unfold hasPrompts, truthy.
    destruct (text (prompts p)), (image (prompts p)), (tts (prompts p));
      simpl; naive_solver. }
  split_and!.
  - intros p. unfold projectsWithPrompts.
    by rewrite list_elem_of_filter, Htest, (comm and).
  - apply sublist_filter.
  - unfold projectsWithPrompts. by apply list_filter_iff.
Qed.

(** C8, counterexample: the video prompt is a descriptive text field of a
    project, and a project that has a title and a video prompt but none of
    the three other prompts is not kept. *)
Example video_only_project_not_eligible :
  video (prompts {| id := "v"; title := "Clip";
                    prompts := {| text := EmptyString; image := EmptyString;
                                  tts := EmptyString;
                                  video := "a drone shot" |} |})
  <> EmptyString
  ∧ projectsWithPrompts
      [{| id := "v"; title := "Clip";
          prompts := {| text := EmptyString; image := EmptyString;
                        tts := EmptyString; video := "a drone shot" |} |}]
    = [].
Proof. split; [discriminate|reflexivity]. Qed.

(** C2, as the code has it: the guard counts all projects.  With fewer than
    two projects in total the handler reports that two projects are needed
    and calls neither the embedding provider nor the engine. *)
Theorem guard_counts_all_projects ai fuel rand t projects st :
  length projects < 2 ->
  handleClusterProjects ai fuel rand t projects st
  = Some ({| clusters := clusters st;
             isClustering := isClustering st;
             clusteringError :=
               Some "You need at least two projects to create clusters." |},
          []).
Proof.
  intros Hlen. unfold handleClusterProjects.
  by destruct (Nat.ltb_spec (length projects) 2); [|lia].
Qed.

Lemma guard_counts_all_projects_witness :
  handleClusterProjects goodAi 0 (fun i => i) 0 (take 1 sampleProjects) idle
  = Some ({| clusters := clusters idle;
             isClustering := isClustering idle;
             clusteringError :=
               Some "You need at least two projects to create clusters." |},
          []).
Proof.
  apply (guard_counts_all_projects goodAi 0 (fun i => i) 0
           (take 1 sampleProjects) idle).
  simpl. lia.
Defined.


(** ** The body of the handler, case by case *)

Lemma promptsToEmbed_texts (l : list Project) :
  map snd (map (fun p => (id p, embedText p)) l) = embedText <$> l.
Proof. rewrite map_map. done. Qed.

Lemma data_ids (embeddings : list Vector) (l : list (string * string)) :
  map fst (imap (fun i p => (p.1, embeddings !! i)) l) = map fst l.
Proof.
  revert embeddings. 
  assert (H : forall (f : nat -> option Vector),
             map fst (imap (fun i (p : string * string) => (p.1, f i)) l) = map fst l).
  { induction l as [|x l IH]; intros f; [done|].
    rewrite imap_cons. simpl. f_equal. apply (IH (f ∘ S)). }
  intros embeddings. apply (H (fun i => embeddings !! i)).
Qed.

Lemma data_vectors_length (embeddings : list Vector) (l : list (string * string)) vectors :
  mapM snd (imap (fun i p => (p.1, embeddings !! i)) l) = Some vectors ->
  length vectors = length l.
Proof.
  intros H. apply length_mapM in H. by rewrite length_imap in H.
Qed.

(** The indices [pickLoop] keeps are those whose points
    [initializeCentroids] returns. *)
Lemma initializeLoop_picks rand (data : list Vector) k fuel :
  forall (indices : list nat) used t,
  initializeLoop fuel rand data k (map (pick data) indices) used t
  = option_map (fun r : list nat * nat => (map (pick data) r.1, r.2))
      (pickLoop fuel rand (length data) k indices used t).
Proof.
  induction fuel as [|fuel IH]; intros indices used t; simpl;
    rewrite length_map;
    destruct ((Z.of_nat (length indices) <? k)%Z
              && (length indices <? length data)); try done.
  unfold randomIndex.
  destruct (decide (rand t mod length data ∈ used)); [apply IH|].
  rewrite <- IH. by rewrite map_app.
Qed.

(** A provider that answers with too few embeddings: the engine is called
    with undefined points and its first assignment pass throws; the message
    names the property that was read. *)
Example short_answer_run :
  handleClusterProjects shortAi 3 (fun i => i) 0 sampleProjects idle
  = Some ({| clusters := None;
             isClustering := false;
             clusteringError :=
               Some "Cannot read properties of undefined (reading '0')" |},
          [EmbedCall ["Cats. a poem about cats"; "Dogs. a song about dogs";
                      "Rockets. how rockets work"];
           KMeansCall [[0]; [10]; []]%float 3])
  ∧ handleClusterProjects emptyAi 3 (fun i => i) 0 sampleProjects idle
    = Some ({| clusters := None;
               isClustering := false;
               clusteringError :=
                 Some "Cannot read properties of undefined (reading 'length')" |},
            [EmbedCall ["Cats. a poem about cats"; "Dogs. a song about dogs";
                        "Rockets. how rockets work"];
             KMeansCall [[]; []; []] 3]).
Proof. split; vm_compute; reflexivity. Qed.

Lemma data_vectors_prefix (l : list (string * string)) :
  forall (embeddings vectors : list Vector),
  mapM snd (imap (fun i p => (p.1, embeddings !! i)) l) = Some vectors ->
  vectors = take (length l) embeddings.
Proof.
  induction l as [|p l IH]; intros embeddings vectors Hvectors.
  { simpl in Hvectors. by injection Hvectors as <-. }
  rewrite imap_cons in Hvectors. cbn [mapM] in Hvectors.
  destruct embeddings as [|e embeddings]; [done|].
  assert (Htail : imap ((fun i (p0 : string * string) =>
                           (p0.1, (e :: embeddings) !! i)) ∘ S) l
                  = imap (fun i p0 => (p0.1, embeddings !! i)) l).
  { by apply imap_ext. }
  rewrite Htail in Hvectors. simpl in Hvectors.
  destruct (mapM snd (imap (fun i p0 => (p0.1, embeddings !! i)) l))
    as [rest|] eqn:Hrest; [|done].
  simpl in Hvectors. injection Hvectors as <-.
  by rewrite (IH embeddings rest Hrest).
Qed.

Lemma clusterBody_cases ai fuel rand t projects o log :
  clusterBody ai fuel rand t projects = (o, log) ->
  let eligible := projectsWithPrompts projects in
  let texts := embedText <$> eligible in
  let numClusters := length eligible `min` 3 in
  (batchEmbedContents ai texts = None
   ∧ o = Threw (Error "Failed to generate embeddings.")
   ∧ log = [EmbedCall texts])
  ∨ (exists vectors,
       is_Some (batchEmbedContents ai texts)
       ∧ ((exists property, o = Threw (TypeError property)) ∨ o = Unfinished)
       ∧ log = [EmbedCall texts; KMeansCall vectors (Z.of_nat numClusters)])
  ∨ (exists vectors,
       (exists embeddings,
          batchEmbedContents ai texts = Some embeddings
          ∧ vectors = take (length eligible) embeddings)
       ∧ length vectors = length eligible
       ∧ match kmeans fuel rand t vectors (Z.of_nat numClusters)
                 defaultMaxIterations with
         | Returned (r, _) =>
             nameBuckets ai projects (id <$> eligible) (assignments r)
               (seq 0 numClusters)
               [EmbedCall texts; KMeansCall vectors (Z.of_nat numClusters)]
             = (o, log)
         | Threw e =>
             o = Threw e
             ∧ log = [EmbedCall texts; KMeansCall vectors (Z.of_nat numClusters)]
         | Unfinished =>
             o = Unfinished
             ∧ log = [EmbedCall texts; KMeansCall vectors (Z.of_nat numClusters)]
         end).
Proof.
  intros Hrun eligible texts numClusters.
  unfold clusterBody, embedContentBatch in Hrun.
  rewrite !promptsToEmbed_texts in Hrun.
  fold eligible texts numClusters in Hrun.
  destruct (batchEmbedContents ai texts) as [embeddings|].
  2:{ injection Hrun as <- <-. by left. }
  right.
  destruct (mapM snd _) as [vectors|] eqn:Hvectors.
  - right. exists vectors. split.
    { exists embeddings. split; [done|].
      apply data_vectors_prefix in Hvectors. by rewrite length_map in Hvectors. }
    split.
    { apply data_vectors_length in Hvectors. by rewrite length_map in Hvectors. }
    rewrite data_ids, map_map in Hrun. simpl in Hrun.
    destruct (kmeans _ _ _ _ _ _) as [[r t']|e|].
    + done.
    + by injection Hrun as <- <-.
    + by injection Hrun as <- <-.
  - left. eexists. split; [done|].
    destruct (pickIndices _ _ _ _ _) as [[indices t0]|];
      injection Hrun as <- <-; eauto.
Qed.

(** ** Buckets *)

Lemma omap_cons {A B} (f : A -> option B) (x : A) (l : list A) :
  omap f (x :: l)
  = match f x with Some y => y :: omap f l | None => omap f l end.
Proof. reflexivity. Qed.

Lemma projectIndicesOf_cons a asg i :
  projectIndicesOf (a :: asg) i
  = (if decide (a = i) then [0] else []) ++ (S <$> projectIndicesOf asg i).
Proof.
  unfold projectIndicesOf. rewrite imap_cons. 
  assert (Hshift : forall (l : list nat) (g : nat -> nat),
    omap (fun x => x)
      (imap (fun index assignment =>
               if decide (assignment = i) then Some (g index) else None) l)
    = g <$> omap (fun x => x)
              (imap (fun index assignment =>
                       if decide (assignment = i) then Some index else None) l)).
  { induction l as [|b l IH]; intros g; [done|].
    rewrite !imap_cons, !omap_cons.
    pose proof (IH (g ∘ S)) as H1. pose proof (IH S) as H2.
    unfold compose in *. cbn beta in *. rewrite H1, H2.
    destruct (decide (b = i)); rewrite ?fmap_cons, <- list_fmap_compose; done. }
  rewrite omap_cons. pose proof (Hshift asg S) as H. unfold compose. cbn beta.
  rewrite H. by destruct (decide (a = i)).
Qed.

Lemma bucketMembers_cons x ids a asg i :
  bucketMembers (x :: ids) (a :: asg) i
  = (if decide (a = i) then [x] else []) ++ bucketMembers ids asg i.
Proof.
  unfold bucketMembers. simpl. rewrite filter_cons. simpl.
  by destruct (decide (a = i)).
Qed.

Lemma projectIndices_members ids : forall asg i,
  length asg = length ids ->
  Forall2 (fun index y => ids !! index = Some y)
          (projectIndicesOf asg i) (bucketMembers ids asg i).
Proof.
  induction ids as [|x ids IH]; intros [|a asg] i Hlen; simpl in Hlen;
    try done; try constructor.
  rewrite projectIndicesOf_cons, bucketMembers_cons.
  apply Forall2_app.
  - destruct (decide (a = i)); by repeat constructor.
  - apply Forall2_fmap_l. apply (IH asg i). lia.
Qed.

Lemma projectIndices_mapM ids asg i :
  length asg = length ids ->
  mapM (fun index => ids !! index) (projectIndicesOf asg i)
  = Some (bucketMembers ids asg i).
Proof. intros Hlen. by apply mapM_Some_2, projectIndices_members. Qed.

Lemma projectIndices_empty ids asg i :
  length asg = length ids ->
  projectIndicesOf asg i = [] <-> bucketMembers ids asg i = [].
Proof.
  intros Hlen. pose proof (projectIndices_members ids asg i Hlen) as H.
  apply Forall2_length in H.
  split; intros Hnil; rewrite Hnil in H; simpl in H.
  - by apply nil_length_inv.
  - by apply nil_length_inv.
Qed.

Lemma nameBuckets_spec ai projects ids asg :
  length asg = length ids ->
  forall buckets log o log',
  nameBuckets ai projects ids asg buckets log = (o, log') ->
  exists calls,
    log' = log ++ (NameCall <$> calls)
    ∧ match o with
      | Returned cs =>
          projectIds <$> cs
          = filter (fun l => l <> []) (bucketMembers ids asg <$> buckets)
          ∧ Forall (named ai) calls
      | Threw e =>
          e = namingFailure ∧ Exists (fun p => ~ named ai p) calls
      | Unfinished => False
      end.
Proof.
  intros Hlen. induction buckets as [|i buckets IH]; intros log o log';
    cbn [nameBuckets].
  { intros [= <- <-]. exists []. by rewrite app_nil_r. }
  pose proof (projectIndices_mapM ids asg i Hlen) as HmapM.
  pose proof (projectIndices_empty ids asg i Hlen) as Hnil.
  destruct (projectIndicesOf asg i) as [|index0 indices] eqn:Hindices.
  - intros Hrun. destruct (IH _ _ _ Hrun) as (calls & -> & Hcalls).
    exists calls. split; [done|].
    rewrite fmap_cons, filter_cons_False by (intros H; by apply H, Hnil).
    done.
  - rewrite HmapM.
    assert (Hne : bucketMembers ids asg i <> []).
    { intros H. by apply Hnil in H. }
    unfold generateClusterName.
    destruct (generateContent ai _) as [responseText|] eqn:Hcontent.
    + destruct (nameBuckets ai projects ids asg buckets _) as [o1 log1] eqn:Hrest.
      destruct (IH _ _ _ Hrest) as (calls & -> & Hcalls).
      intros Hrun.
      exists (map (namingText projects) (bucketMembers ids asg i) :: calls).
      split.
      { destruct o1; injection Hrun as <- <-;
          by rewrite <- app_assoc. }
      destruct o1 as [cs|e|]; injection Hrun as <- <-.
      * destruct Hcalls as [Hcs Hcalls]. split.
        -- rewrite !fmap_cons, filter_cons_True by done. by rewrite Hcs.
        -- constructor; [|done]. unfold named. by rewrite Hcontent.
      * destruct Hcalls as [-> Hcalls]. split; [done|]. by right.
      * done.
    + intros [= <- <-].
      exists [map (namingText projects) (bucketMembers ids asg i)].
      split; [done|]. split; [done|]. left.
      unfold named. rewrite Hcontent. by intros [? ?].
Qed.




Lemma kmeans_result_labels fuel rand t vectors maxIterations r t' :
  kmeans fuel rand t vectors (Z.of_nat (length vectors `min` 3)) maxIterations
  = Returned (r, t') ->
  length (assignments r) = length vectors
  ∧ Forall (fun a => a < length vectors `min` 3) (assignments r).
Proof.
  intros Hrun. destruct vectors as [|v vectors].
  - rewrite kmeans_trivial_input in Hrun by auto.
    injection Hrun as <- <-. by split.
  - assert (Hk : (1 <= Z.of_nat (length (v :: vectors) `min` 3)
                    <= maxArrayLength)%Z).
    { unfold maxArrayLength. cbn [length]. lia. }
    pose proof (kmeans_labels_safe fuel rand t (v :: vectors)
                  (Z.of_nat (length (v :: vectors) `min` 3)) maxIterations
                  Hk ltac:(done)) as Hsafe.
    rewrite Hrun in Hsafe. destruct Hsafe as [Hlen Hall]. split; [done|].
    eapply Forall_impl; [exact Hall|]. intros a Ha. cbn beta in Ha. lia.
Qed.

Lemma handle_outcome ai fuel rand t projects st st' log :
  handleClusterProjects ai fuel rand t projects st = Some (st', log) ->
  (length projects < 2
   ∧ clusteringError st'
     = Some "You need at least two projects to create clusters."
   ∧ log = [])
  ∨ (2 <= length projects
     ∧ exists o,
         clusterBody ai fuel rand t projects = (o, log)
         ∧ match o with
           | Returned newClusters =>
               st' = {| clusters := Some newClusters; isClustering := false;
                        clusteringError := None |}
           | Threw e =>
               st' = {| clusters := None; isClustering := false;
                        clusteringError := Some (errorMessage e) |}
           | Unfinished => False
           end).
Proof.
  unfold handleClusterProjects.
  destruct (Nat.ltb_spec (length projects) 2).
  - intros [= <- <-]. left. by repeat split.
  - destruct (clusterBody ai fuel rand t projects) as [[cs|e|] log0];
      intros Hrun; try done; injection Hrun as <- <-; right;
      (split; [done|]); eexists; (split; [done|]); done.
Qed.

(** ** The handler *)

Lemma nameBuckets_in_pipeline ai fuel rand t projects vectors r t' o log :
  length vectors = length (projectsWithPrompts projects) ->
  let eligible := projectsWithPrompts projects in
  let numClusters := length eligible `min` 3 in
  kmeans fuel rand t vectors (Z.of_nat numClusters) defaultMaxIterations
  = Returned (r, t') ->
  nameBuckets ai projects (id <$> eligible) (assignments r) (seq 0 numClusters)
    [EmbedCall (embedText <$> eligible);
     KMeansCall vectors (Z.of_nat numClusters)]
  = (o, log) ->
  length (assignments r) = length eligible
  ∧ Forall (fun a => a < numClusters) (assignments r)
  ∧ exists calls,
      log = [EmbedCall (embedText <$> eligible);
             KMeansCall vectors (Z.of_nat numClusters)]
            ++ (NameCall <$> calls)
      ∧ match o with
        | Returned cs =>
            projectIds <$> cs
            = filter (fun l => l <> [])
                (bucketMembers (id <$> eligible) (assignments r)
                   <$> seq 0 numClusters)
            ∧ Forall (named ai) calls
        | Threw e => e = namingFailure ∧ Exists (fun p => ~ named ai p) calls
        | Unfinished => False
        end.
Proof.
  intros Hvectors eligible numClusters Hkmeans Hnames.
  subst numClusters eligible. rewrite <- Hvectors in Hkmeans.
  apply kmeans_result_labels in Hkmeans as [Hlen Hall].
  rewrite Hvectors in Hlen, Hall.
  split; [done|]. split; [done|].
  eapply nameBuckets_spec; [|exact Hnames]. by rewrite length_fmap.
Qed.

(** C1, as the code has it: there is no placeholder name.  When the naming
    call made for a bucket fails, the exception reaches the handler's
    [catch]: no cluster list is set, the error message of
    [generateClusterName] is shown, and the run is over. *)
Theorem naming_failure_aborts_run ai fuel rand t projects st st' log projectPrompts :
  handleClusterProjects ai fuel rand t projects st = Some (st', log) ->
  NameCall projectPrompts ∈ log ->
  generateContent ai (clusterNamePrompt projectPrompts) = None ->
  st' = {| clusters := None;
           isClustering := false;
           clusteringError :=
             Some "Failed to generate a name for the cluster." |}.
Proof.
  intros Hrun Hcall Hfails.
  apply handle_outcome in Hrun as [(_ & _ & ->)|(_ & o & Hbody & Hst)].
  { by apply not_elem_of_nil in Hcall. }
  apply clusterBody_cases in Hbody
    as [(_ & _ & ->)|[(vectors & _ & _ & ->)|(vectors & _ & Hlen & Hkmeans)]].
  - apply list_elem_of_singleton in Hcall. done.
  - rewrite !elem_of_cons in Hcall.
    destruct Hcall as [?|[?|Hcall]]; try done. by apply not_elem_of_nil in Hcall.
  - destruct (kmeans _ _ _ _ _ _) as [[r t']|e|] eqn:Hk.
    + destruct (nameBuckets_in_pipeline _ _ _ _ _ _ _ _ _ _ Hlen Hk Hkmeans)
        as (_ & _ & calls & -> & Ho).
      assert (Hin : projectPrompts ∈ calls).
      { rewrite elem_of_app, !elem_of_cons, list_elem_of_fmap in Hcall.
        destruct Hcall as [[?|[?|Hcall]]|Hcall]; try done.
        - by apply not_elem_of_nil in Hcall.
        - destruct Hcall as (p & [= ->] & Hp). done. }
      assert (Hnot : ~ named ai projectPrompts).
      { unfold named. rewrite Hfails. by intros [? ?]. }
      destruct o as [cs|e|]; [| |done].
      * destruct Ho as [_ Hall]. rewrite Forall_forall in Hall.
        by apply Hall in Hin.
      * destruct Ho as [-> _]. done.
    + destruct Hkmeans as [_ ->]. rewrite !elem_of_cons in Hcall.
      destruct Hcall as [?|[?|Hcall]]; try done. by apply not_elem_of_nil in Hcall.
    + destruct Hkmeans as [_ ->]. rewrite !elem_of_cons in Hcall.
      destruct Hcall as [?|[?|Hcall]]; try done. by apply not_elem_of_nil in Hcall.
Qed.


(** With two or more projects no count of the eligible ones is taken: the
    run embeds their texts, and hands the vectors to the engine as soon as
    the provider answers. *)
Lemma no_guard_on_eligible_count ai fuel rand t projects st st' log :
  2 <= length projects ->
  handleClusterProjects ai fuel rand t projects st = Some (st', log) ->
  let texts := embedText <$> projectsWithPrompts projects in
  log !! 0 = Some (EmbedCall texts)
  ∧ (is_Some (batchEmbedContents ai texts) ->
     exists vectors,
       log !! 1
       = Some (KMeansCall vectors
                 (Z.of_nat (length (projectsWithPrompts projects) `min` 3)))).
Proof.
  intros Hlen Hrun texts.
  apply handle_outcome in Hrun as [(? & _)|(_ & o & Hbody & Hst)]; [lia|].
  apply clusterBody_cases in Hbody
    as [(Hnone & _ & ->)|[(vectors & _ & _ & ->)|(vectors & _ & Hvec & Hkmeans)]].
  - split; [done|]. fold texts in Hnone. rewrite Hnone. by intros [? ?].
  - split; [done|]. intros _. by exists vectors.
  - destruct (kmeans _ _ _ _ _ _) as [[r t']|e|] eqn:Hk.
    + destruct (nameBuckets_in_pipeline _ _ _ _ _ _ _ _ _ _ Hvec Hk Hkmeans)
        as (_ & _ & calls & -> & _).
      split; [done|]. intros _. by exists vectors.
    + destruct Hkmeans as [_ ->]. split; [done|]. intros _. by exists vectors.
    + destruct Hkmeans as [_ ->]. split; [done|]. intros _. by exists vectors.
Qed.

Lemma data_vectors_defined (l : list (string * string)) : forall embeddings : list Vector,
  length l <= length embeddings ->
  mapM snd (imap (fun i p => (p.1, embeddings !! i)) l)
  = Some (take (length l) embeddings).
Proof.
  induction l as [|p l IH]; intros [|e embeddings] Hlen; simpl in Hlen;
    try done; try lia.
  rewrite imap_cons. cbn [mapM length take].
  assert (Htail : imap ((fun i (p0 : string * string) =>
                           (p0.1, (e :: embeddings) !! i)) ∘ S) l
                  = imap (fun i p0 => (p0.1, embeddings !! i)) l).
  { by apply imap_ext. }
  rewrite Htail, (IH embeddings) by lia. done.
Qed.

(** A run succeeds when both providers answer and [Math.random] produces
    enough distinct indices. *)
Lemma handleClusterProjects_succeeds ai fuel m rand t projects st embeddings :
  2 <= length projects ->
  let eligible := projectsWithPrompts projects in
  let vectors := take (length eligible) embeddings in
  batchEmbedContents ai (embedText <$> eligible) = Some embeddings ->
  length eligible <= length embeddings ->
  (forall prompt, is_Some (generateContent ai prompt)) ->
  enoughDraws rand t vectors (Z.of_nat (length eligible `min` 3)) m ->
  m <= fuel ->
  exists newClusters log,
    handleClusterProjects ai fuel rand t projects st
    = Some ({| clusters := Some newClusters;
               isClustering := false;
               clusteringError := None |}, log).
Proof.
  intros Hlen eligible vectors Hembed Hcount Hnamed Hdraws Hfuel.
  unfold handleClusterProjects.
  destruct (Nat.ltb_spec (length projects) 2); [lia|].
  unfold clusterBody, embedContentBatch.
  rewrite !promptsToEmbed_texts. fold eligible. rewrite Hembed.
  rewrite data_vectors_defined by (by rewrite length_map).
  rewrite length_map. fold vectors.
  assert (Hvectors : length vectors = length eligible).
  { unfold vectors. rewrite length_take. lia. }
  assert (Hkmeans : exists r t',
             kmeans fuel rand t vectors (Z.of_nat (length eligible `min` 3))
               defaultMaxIterations = Returned (r, t')
             ∧ length (assignments r) = length eligible).
  { destruct (decide (vectors = [])) as [Hnil|Hne].
    - rewrite kmeans_trivial_input by auto. eexists _, _. split; [done|].
      rewrite <- Hvectors, Hnil. done.
    - destruct (kmeans_returns_with_enough_draws fuel m rand t vectors
                  (Z.of_nat (length eligible `min` 3)) defaultMaxIterations)
        as (r & t' & Hrun & Hr & _); auto.
      + unfold maxArrayLength. destruct vectors; [done|].
        simpl in Hvectors. lia.
      + exists r, t'. split; [done|]. lia. }
  destruct Hkmeans as (r & t' & -> & Hr).
  rewrite data_ids, map_map. cbn [fst].
  destruct (nameBuckets ai projects _ _ _ _) as [o log] eqn:Hnames.
  apply nameBuckets_spec in Hnames as (calls & _ & Ho);
    [|by rewrite length_map].
  destruct o as [cs|e|]; [by eauto| |done].
  destruct Ho as [_ Hex]. apply Exists_exists in Hex as (p & _ & Hp).
  exfalso. apply Hp, Hnamed.
Qed.

Lemma naming_failure_aborts_run_witness :
  handleClusterProjects flakyAi 3 (fun i => i) 0 sampleProjects idle
  = Some (flakyState, flakyLog)
  ∧ NameCall ["Dogs. a song about dogs"] ∈ flakyLog
  ∧ flakyState
    = {| clusters := None;
         isClustering := false;
         clusteringError :=
           Some "Failed to generate a name for the cluster." |}.
Proof.
  assert (Hrun : handleClusterProjects flakyAi 3 (fun i => i) 0 sampleProjects idle
                 = Some (flakyState, flakyLog)).
  { vm_compute. reflexivity. }
  assert (Hcall : NameCall ["Dogs. a song about dogs"] ∈ flakyLog).
  { unfold flakyLog. rewrite !elem_of_cons. auto. }
  split; [exact Hrun|]. split; [exact Hcall|].
  apply (naming_failure_aborts_run flakyAi 3 (fun i => i) 0 sampleProjects idle
           flakyState flakyLog ["Dogs. a song about dogs"] Hrun Hcall).
  vm_compute. reflexivity.
Defined.

(** C1, counterexample: three buckets, the naming call fails for the second
    one only.  The run returns no clusters at all, not three clusters with
    one placeholder name, and the failure is what the user is shown. *)
Lemma naming_failure_is_run_level :
  handleClusterProjects flakyAi 3 (fun i => i) 0 sampleProjects idle
  = Some ({| clusters := None;
             isClustering := false;
             clusteringError :=
               Some "Failed to generate a name for the cluster." |},
          [EmbedCall ["Cats. a poem about cats"; "Dogs. a song about dogs";
                      "Rockets. how rockets work"];
           KMeansCall [[0]; [10]; [20]]%float 3;
           NameCall ["Cats. a poem about cats"];
           NameCall ["Dogs. a song about dogs"]]).
Proof. vm_compute. reflexivity. Qed.

(** C2, counterexample: two projects of which one is eligible.  No
    insufficient-data error is reported: the single text is embedded, the
    engine runs on one vector with k = 1, and one cluster is returned. *)
Lemma one_eligible_project_is_clustered :
  length (projectsWithPrompts (take 2 sampleProjects)) = 1
  ∧ handleClusterProjects goodAi 3 (fun i => i) 0 (take 2 sampleProjects) idle
    = Some ({| clusters := Some [{| name := "Some Title"; projectIds := ["p1"] |}];
               isClustering := false;
               clusteringError := None |},
            [EmbedCall ["Cats. a poem about cats"];
             KMeansCall [[0%float]] 1;
             NameCall ["Cats. a poem about cats"]]).
Proof. split; vm_compute; reflexivity. Qed.


(** The run behind the witness: bucket 1 is empty and is left out. *)
Example twin_run_drops_empty_bucket :
  handleClusterProjects twinAi 3 (fun i => i) 0 sampleProjects idle
  = Some (twinState, twinLog).
Proof. vm_compute. reflexivity. Qed.

(** * Further properties of the engine *)

(** ** Comparisons of binary64 values *)

Lemma SFcompare_trans_lt a b c :
  SFltb a b = true -> SFltb b c = true -> SFltb a c = true.
Proof.
  unfold SFltb, SFcompare.
  destruct a as [[|]|[|]| |[|] ma ea], b as [[|]|[|]| |[|] mb eb],
           c as [[|]|[|]| |[|] mc ec]; try done;
    change (Pos.compare_cont Eq) with Pos.compare;
    destruct (Z.compare_spec ea eb), (Z.compare_spec eb ec),
             (Z.compare_spec ea ec); try done; try lia; subst;
    destruct (Pos.compare_spec ma mb), (Pos.compare_spec mb mc),
             (Pos.compare_spec ma mc); simpl; try done; try lia.
Qed.

Lemma SFcompare_trans_le_lt a b c :
  SFleb a b = true -> SFltb b c = true -> SFltb a c = true.
Proof.
  unfold SFltb, SFleb, SFcompare.
  destruct a as [[|]|[|]| |[|] ma ea], b as [[|]|[|]| |[|] mb eb],
           c as [[|]|[|]| |[|] mc ec]; try done;
    change (Pos.compare_cont Eq) with Pos.compare;
    destruct (Z.compare_spec ea eb), (Z.compare_spec eb ec),
             (Z.compare_spec ea ec); try done; try lia; subst;
    destruct (Pos.compare_spec ma mb), (Pos.compare_spec mb mc),
             (Pos.compare_spec ma mc); simpl; try done; try lia.
Qed.

Lemma ltb_trans (a b c : float) :
  (a <? b)%float = true -> (b <? c)%float = true -> (a <? c)%float = true.
Proof. rewrite !FloatAxioms.ltb_spec. apply SFcompare_trans_lt. Qed.

Lemma leb_ltb_trans (a b c : float) :
  (a <=? b)%float = true -> (b <? c)%float = true -> (a <? c)%float = true.
Proof.
  rewrite FloatAxioms.leb_spec, !FloatAxioms.ltb_spec.
  apply SFcompare_trans_le_lt.
Qed.

Lemma ltb_below_infinity (a b : float) :
  (a <? b)%float = true -> (a <? infinity)%float = true.
Proof.
  rewrite !FloatAxioms.ltb_spec.
  change (Prim2SF infinity) with (S754_infinity false).
  unfold SFltb, SFcompare.
  destruct (Prim2SF a) as [[|]|[|]| |[|] ma ea],
           (Prim2SF b) as [[|]|[|]| |[|] mb eb]; done.
Qed.

Lemma ltb_irrefl (a : float) : (a <? a)%float = false.
Proof.
  rewrite FloatAxioms.ltb_spec. unfold SFltb, SFcompare.
  destruct (Prim2SF a) as [[|]|[|]| |[|] ma ea]; try done;
    change (Pos.compare_cont Eq) with Pos.compare;
    by rewrite Z.compare_refl, Pos.compare_refl.
Qed.

Lemma ltb_leb (a b : float) : (a <? b)%float = true -> (a <=? b)%float = true.
Proof.
  rewrite FloatAxioms.ltb_spec, FloatAxioms.leb_spec. unfold SFltb, SFleb.
  by destruct (SFcompare (Prim2SF a) (Prim2SF b)) as [[| |]|].
Qed.

Lemma SFcompare_not_lt a b :
  SFeqb a a = true -> SFeqb b b = true ->
  SFltb a b = false -> SFleb b a = true.
Proof.
  unfold SFeqb, SFltb, SFleb, SFcompare.
  destruct a as [[|]|[|]| |[|] ma ea], b as [[|]|[|]| |[|] mb eb]; try done;
    intros _ _;
    pose proof (Pos.compare_cont_antisym ma mb Eq) as Hanti;
    cbn [CompOpp] in Hanti; rewrite <- Hanti, (Z.compare_antisym ea eb);
    by destruct (ea ?= eb)%Z, (Pos.compare_cont Eq ma mb).
Qed.

Lemma SFcompare_not_le a b :
  SFeqb a a = true -> SFeqb b b = true ->
  SFleb a b = false -> SFltb b a = true.
Proof.
  unfold SFeqb, SFltb, SFleb, SFcompare.
  destruct a as [[|]|[|]| |[|] ma ea], b as [[|]|[|]| |[|] mb eb]; try done;
    intros _ _;
    pose proof (Pos.compare_cont_antisym ma mb Eq) as Hanti;
    cbn [CompOpp] in Hanti; rewrite <- Hanti, (Z.compare_antisym ea eb);
    by destruct (ea ?= eb)%Z, (Pos.compare_cont Eq ma mb).
Qed.

Lemma SFltb_not_nan a b :
  SFltb a b = true -> SFeqb a a = true ∧ SFeqb b b = true.
Proof.
  unfold SFeqb, SFltb, SFcompare.
  destruct a as [[|]|[|]| |[|] ma ea], b as [[|]|[|]| |[|] mb eb]; try done;
    intros _; rewrite !Z.compare_refl, !Pos.compare_cont_refl; done.
Qed.

Lemma not_ltb_leb (a b : float) :
  is_nan a = false -> is_nan b = false ->
  (a <? b)%float = false -> (b <=? a)%float = true.
Proof.
  unfold is_nan. intros Ha Hb.
  apply negb_false_iff in Ha, Hb. rewrite FloatAxioms.eqb_spec in Ha, Hb.
  rewrite FloatAxioms.ltb_spec, FloatAxioms.leb_spec. by apply SFcompare_not_lt.
Qed.

Lemma not_leb_ltb (a b : float) :
  is_nan a = false -> is_nan b = false ->
  (a <=? b)%float = false -> (b <? a)%float = true.
Proof.
  unfold is_nan. intros Ha Hb.
  apply negb_false_iff in Ha, Hb. rewrite FloatAxioms.eqb_spec in Ha, Hb.
  rewrite FloatAxioms.ltb_spec, FloatAxioms.leb_spec. by apply SFcompare_not_le.
Qed.

Lemma ltb_not_nan (a b : float) :
  (a <? b)%float = true -> is_nan a = false ∧ is_nan b = false.
Proof.
  unfold is_nan. rewrite FloatAxioms.ltb_spec.
  intros [Ha Hb]%SFltb_not_nan.
  by rewrite !negb_false_iff, !FloatAxioms.eqb_spec.
Qed.

(** ** The assignment step *)

Lemma nearest_scan x cs : forall seen m c,
  scanInvariant x seen m c ->
  scanResult x (seen ++ cs) (nearest x cs (length seen) m c).
Proof.
  induction cs as [|c0 cs IH]; intros seen m c [Hmin Hcand]; simpl.
  - rewrite app_nil_r.
    destruct Hcand as [[-> ->]|(c1 & Hc & -> & Hfinite & Hbefore)].
    + by left.
    + right. by exists c1.
  - replace (S (length seen)) with (length (seen ++ [c0]))
      by (rewrite length_app; simpl; lia).
    rewrite (cons_middle c0 seen cs), app_assoc.
    destruct (squaredDistance x c0 <? m)%float eqn:Hlt; apply IH; split.
    + intros j c' Hj. apply lookup_app_Some in Hj as [Hj|[_ Hj]].
      * destruct (squaredDistance x c' <? squaredDistance x c0)%float eqn:Hc';
          [|done].
        rewrite <- (Hmin j c' Hj). symmetry.
        by apply ltb_trans with (squaredDistance x c0).
      * apply list_lookup_singleton_Some in Hj as [_ <-]. apply ltb_irrefl.
    + right. exists c0. split; [by apply list_lookup_middle|]. split; [done|].
      split; [by apply ltb_below_infinity with m|].
      intros j c' Hlt' Hj. rewrite lookup_app_l in Hj by done.
      destruct (squaredDistance x c' <=? squaredDistance x c0)%float eqn:Hc';
        [|done].
      rewrite <- (Hmin j c' Hj). symmetry.
      by apply leb_ltb_trans with (squaredDistance x c0).
    + intros j c' Hj. apply lookup_app_Some in Hj as [Hj|[_ Hj]].
      * by apply (Hmin j).
      * by apply list_lookup_singleton_Some in Hj as [_ <-].
    + destruct Hcand as [?|(c1 & Hc & -> & Hfinite & Hbefore)]; [by left|].
      right. exists c1. split; [by apply lookup_app_l_Some|]. split; [done|].
      split; [done|].
      intros j c' Hlt' Hj. apply (Hbefore j c' Hlt').
      apply lookup_lt_Some in Hc. rewrite lookup_app_l in Hj by lia. done.
Qed.

Lemma closest_scan (cs : list Vector) (x : Vector) :
  scanResult x cs (closest cs x).
Proof.
  apply (nearest_scan x cs [] infinity 0). split; [done|]. by left.
Qed.

(** X1.  The centroid a point is assigned to is a nearest one: no centroid
    is strictly closer to the point, and where neither distance is NaN the
    assigned centroid is at most as far as the other.  Ties go to the lowest
    index: no centroid of lower index is at most as far, so each one is
    strictly farther away unless its distance is NaN.  An assigned index
    above 0 has a distance below Infinity that is not NaN, so a centroid at
    a NaN distance is only ever assigned as the default index 0. *)
Theorem closest_is_nearest (cs : list Vector) (x c_r : Vector) :
  cs !! closest cs x = Some c_r ->
  (forall j c, cs !! j = Some c ->
     (squaredDistance x c <? squaredDistance x c_r)%float = false
     ∧ (is_nan (squaredDistance x c) = false ->
        is_nan (squaredDistance x c_r) = false ->
        (squaredDistance x c_r <=? squaredDistance x c)%float = true))
  ∧ (forall j c, j < closest cs x -> cs !! j = Some c ->
       (squaredDistance x c <=? squaredDistance x c_r)%float = false
       ∧ (is_nan (squaredDistance x c) = false ->
          (squaredDistance x c_r <? squaredDistance x c)%float = true))
  ∧ (0 < closest cs x ->
     (squaredDistance x c_r <? infinity)%float = true
     ∧ is_nan (squaredDistance x c_r) = false).
Proof.
  intros Hr.
  assert (Hnearest : forall j c, cs !! j = Some c ->
            (squaredDistance x c <? squaredDistance x c_r)%float = false).
  { destruct (closest_scan cs x) as [[H0 Hinf]|(c' & Hc' & _ & Hmin & _)].
    - intros j c Hj.
      destruct (squaredDistance x c <? squaredDistance x c_r)%float eqn:Hlt;
        [|done].
      rewrite <- (Hinf j c Hj). symmetry.
      by apply ltb_below_infinity with (squaredDistance x c_r).
    - rewrite Hr in Hc'. by injection Hc' as <-. }
  assert (Hfinite : 0 < closest cs x ->
            (squaredDistance x c_r <? infinity)%float = true).
  { destruct (closest_scan cs x) as [[H0 _]|(c' & Hc' & Hlt & _)]; [lia|].
    rewrite Hr in Hc'. by injection Hc' as <-. }
  split_and!; [| |by intros Hpos; split;
                       [|apply (ltb_not_nan _ infinity)]; apply Hfinite].
  - intros j c Hj. split; [by apply (Hnearest j)|].
    intros Hc Hcr. apply not_ltb_leb; [done..|]. by apply (Hnearest j).
  - intros j c Hlt Hj.
    assert (Hfar : (squaredDistance x c <=? squaredDistance x c_r)%float = false).
    { destruct (closest_scan cs x) as [[H0 _]|(c' & Hc' & _ & _ & Hlow)]; [lia|].
      rewrite Hr in Hc'. injection Hc' as <-. by apply (Hlow j). }
    split; [done|]. intros Hc. apply not_leb_ltb; [done| |done].
    by apply (ltb_not_nan _ infinity), Hfinite; lia.
Qed.

Lemma closest_is_nearest_witness :
  [[nan]; [1]; [1]]%float !! closest [[nan]; [1]; [1]]%float [1%float]
  = Some [1%float]
  ∧ (forall j c, [[nan]; [1]; [1]]%float !! j = Some c ->
       (squaredDistance [1%float] c <? squaredDistance [1%float] [1%float])%float
       = false
       ∧ (is_nan (squaredDistance [1%float] c) = false ->
          is_nan (squaredDistance [1%float] [1%float]) = false ->
          (squaredDistance [1%float] [1%float] <=? squaredDistance [1%float] c)%float
          = true))
  ∧ (forall j c, j < closest [[nan]; [1]; [1]]%float [1%float] ->
       [[nan]; [1]; [1]]%float !! j = Some c ->
       (squaredDistance [1%float] c <=? squaredDistance [1%float] [1%float])%float
       = false
       ∧ (is_nan (squaredDistance [1%float] c) = false ->
          (squaredDistance [1%float] [1%float] <? squaredDistance [1%float] c)%float
          = true))
  ∧ (0 < closest [[nan]; [1]; [1]]%float [1%float] ->
     (squaredDistance [1%float] [1%float] <? infinity)%float = true
     ∧ is_nan (squaredDistance [1%float] [1%float]) = false).
Proof.
  split; [vm_compute; reflexivity|].
  apply (closest_is_nearest [[nan]; [1]; [1]]%float [1%float] [1%float]).
  vm_compute. reflexivity.
Defined.

(** The run behind the witness: the first centroid is at a NaN distance and
    is passed over, and of the two centroids at distance 0 the first is
    assigned. *)
Example closest_skips_nan :
  closest [[nan]; [1]; [1]]%float [1%float] = 1
  ∧ is_nan (squaredDistance [1%float] [nan%float]) = true.
Proof. split; vm_compute; reflexivity. Qed.

Lemma assignPoints_spec cs data : forall asg,
  length asg = length data ->
  assignPoints cs data asg
  = (closest cs <$> data, bool_decide (closest cs <$> data <> asg)).
Proof.
  induction data as [|x data IH]; intros [|a asg] Hlen; simpl in Hlen; try done.
  simpl. rewrite (IH asg) by lia. f_equal.
  destruct (Nat.eqb_spec a (closest cs x)) as [->|Hne]; simpl.
  - apply bool_decide_ext. split; intros H Heq; apply H.
    + by injection Heq.
    + by f_equal.
  - symmetry. apply bool_decide_eq_true. intros [= Heq _]. by apply Hne.
Qed.

(** X2.  One assignment pass labels every point with its closest centroid,
    whatever the labels were before, and reports a change exactly when the
    new labelling differs from the old one. *)
Theorem assignPoints_labels (cs data : list Vector) (asg : list nat) :
  length asg = length data ->
  (assignPoints cs data asg).1 = closest cs <$> data
  ∧ ((assignPoints cs data asg).2 = true <-> closest cs <$> data <> asg).
Proof.
  intros Hlen. rewrite assignPoints_spec by done. split; [done|].
  cbn [snd]. apply bool_decide_eq_true.
Qed.

Lemma assignPoints_labels_witness :
  length [0; 0] = length [[1]; [9]]%float
  ∧ (assignPoints [[0]; [10]]%float [[1]; [9]]%float [0; 0]).1
    = closest [[0]; [10]]%float <$> [[1]; [9]]%float
  ∧ ((assignPoints [[0]; [10]]%float [[1]; [9]]%float [0; 0]).2 = true
     <-> closest [[0]; [10]]%float <$> [[1]; [9]]%float <> [0; 0]).
Proof.
  split; [reflexivity|].
  apply (assignPoints_labels [[0]; [10]]%float [[1]; [9]]%float [0; 0]).
  reflexivity.
Defined.

(** ** The initialisation draws without replacement *)

Lemma initializeLoop_indices rand data k fuel : forall cs used t cs' t' indices,
  initializeLoop fuel rand data k cs used t = Some (cs', t') ->
  cs = pick data <$> indices ->
  used = list_to_set indices ->
  NoDup indices ->
  Forall (fun i => i < length data) indices ->
  exists indices',
    cs' = pick data <$> indices'
    ∧ NoDup indices'
    ∧ Forall (fun i => i < length data) indices'.
Proof.
  induction fuel as [|fuel IH]; intros cs used t cs' t' indices; simpl;
    destruct (Z.ltb_spec (Z.of_nat (length cs)) k);
    destruct (Nat.ltb_spec (length cs) (length data)); simpl;
    intros Hrun Hcs Hused Hnodup Hrange;
    try (injection Hrun as <- <-; by exists indices); try done.
  destruct (decide (randomIndex rand t data ∈ used)) as [Hin|Hout].
  - by apply (IH _ _ _ _ _ indices Hrun).
  - apply (IH _ _ _ _ _ (indices ++ [randomIndex rand t data]) Hrun).
    + by rewrite fmap_app, Hcs.
    + rewrite list_to_set_app_L, Hused. simpl.
      rewrite (right_id_L ∅ (∪)). apply (comm_L (∪)).
    + apply NoDup_app. split; [done|]. split; [|apply NoDup_singleton].
      intros i Hi Hi'. apply list_elem_of_singleton in Hi'. subst i. apply Hout.
      rewrite Hused. by apply elem_of_list_to_set.
    + apply Forall_app. split; [done|]. apply Forall_singleton.
      apply Nat.mod_upper_bound. lia.
Qed.

(** X3.  The initial centroids are the data points at pairwise distinct
    positions of the input, min(k, data.length) of them: no position is
    picked twice. *)
Theorem initializeCentroids_without_replacement fuel rand t data k cs t' :
  initializeCentroids fuel rand t data k = Some (cs, t') ->
  exists indices,
    cs = pick data <$> indices
    ∧ NoDup indices
    ∧ Forall (fun i => i < length data) indices
    ∧ length indices = Z.to_nat k `min` length data
    ∧ Forall (fun c => c ∈ data) cs.
Proof.
  intros Hrun.
  destruct (initializeLoop_indices rand data k fuel [] ∅ t cs t' [] Hrun)
    as (indices & -> & Hnodup & Hrange); try done; [constructor..|].
  exists indices. repeat split; try done.
  - apply initializeLoop_length in Hrun; [|simpl; lia].
    by rewrite length_fmap in Hrun.
  - apply Forall_fmap. eapply Forall_impl; [exact Hrange|].
    intros i Hi. cbn beta in Hi. unfold compose, pick.
    destruct (data !! i) as [v|] eqn:Hv; simpl.
    + by apply list_elem_of_lookup_2 with i.
    + apply lookup_ge_None in Hv. unfold Vector in *. lia.
Qed.

Lemma initializeCentroids_without_replacement_witness :
  initializeCentroids 3 alternatingDraws 1 sepData 2
  = Some ([[0; 0]; [0; 0]]%float, 4)
  ∧ exists indices,
      [[0; 0]; [0; 0]]%float = pick sepData <$> indices
      ∧ NoDup indices
      ∧ Forall (fun i => i < length sepData) indices
      ∧ length indices = Z.to_nat 2 `min` length sepData
      ∧ Forall (fun c => c ∈ sepData) [[0; 0]; [0; 0]]%float.
Proof.
  split; [vm_compute; reflexivity|].
  apply (initializeCentroids_without_replacement 3 alternatingDraws 1 sepData 2
           [[0; 0]; [0; 0]]%float 4).
  vm_compute. reflexivity.
Defined.

(** ** The update step *)

Lemma iterate_step maxIterations rand data k cs asg t :
  iterate (S maxIterations) rand data k cs asg true t
  = match updateCentroids rand data k (assignPoints cs data asg).1 t with
    | Returned (cs', t') =>
        iterate maxIterations rand data k cs' (assignPoints cs data asg).1
          (assignPoints cs data asg).2 t'
    | Threw e => Threw e
    | Unfinished => Unfinished
    end.
Proof.
  cbn [iterate]. unfold updateCentroids.
  destruct (assignPoints cs data asg) as [asg' changed']. cbn [fst snd].
  destruct (invalidArrayLength k); [done|].
  by destruct (accumulate data asg' _ _) as [[sums counts]|e|].
Qed.

Lemma clusterMembers_cons x data a asg i :
  clusterMembers (x :: data) (a :: asg) i
  = (if decide (a = i) then [x] else []) ++ clusterMembers data asg i.
Proof.
  unfold clusterMembers. simpl. rewrite filter_cons. simpl.
  by destruct (decide (a = i)).
Qed.

Lemma accumulate_sums data : forall asg sums counts,
  length asg = length data ->
  Forall (fun a => a < length sums) asg ->
  accumulate data asg sums counts
  = Returned
      (imap (fun i acc => foldl addInto acc (clusterMembers data asg i)) sums,
       imap (fun i c => c + length (clusterMembers data asg i)) counts).
Proof.
  induction data as [|x data IH]; intros [|a asg] sums counts Hlen Hall;
    simpl in Hlen; try done.
  - simpl. f_equal. f_equal.
    + apply list_eq. intros i. rewrite list_lookup_imap.
      by destruct (sums !! i).
    + apply list_eq. intros i. rewrite list_lookup_imap.
      destruct (counts !! i); simpl; [|done]. f_equal. unfold clusterMembers. simpl. lia.
  - apply Forall_cons in Hall as [Ha Hall]. cbn [accumulate].
    destruct (lookup_lt_is_Some_2 sums a Ha) as [acc Hacc]. rewrite Hacc.
    rewrite IH; [|lia|by rewrite length_insert].
    f_equal. f_equal.
    + apply list_eq. intros i. rewrite !list_lookup_imap, clusterMembers_cons.
      destruct (decide (a = i)) as [<-|Hne].
      * rewrite list_lookup_insert_eq by done. rewrite Hacc. done.
      * by rewrite list_lookup_insert_ne.
    + apply list_eq. intros i. rewrite !list_lookup_imap, clusterMembers_cons.
      destruct (decide (a = i)) as [<-|Hne].
      * rewrite list_lookup_alter_eq. destruct (counts !! a); simpl; [|done].
        f_equal. lia.
      * rewrite list_lookup_alter_ne by done.
        destruct (counts !! i); simpl; done.
Qed.

Lemma finishCentroids_spec rand data sums : forall counts t,
  length counts = length sums ->
  let cs' := (finishCentroids rand data sums counts t).1 in
  let t' := (finishCentroids rand data sums counts t).2 in
  t' = t + length (filter (fun c => c = 0) counts)
  ∧ forall i sum count,
      sums !! i = Some sum -> counts !! i = Some count ->
      (0 < count ->
       cs' !! i = Some ((fun x => (x / float_of_nat count)%float) <$> sum))
      ∧ (count = 0 ->
         exists u, t <= u < t'
                   ∧ cs' !! i = Some (pick data (randomIndex rand u data))).
Proof.
  induction sums as [|s sums IH]; intros [|c counts] t Hlen; simpl in Hlen;
    try done.
  cbn [finishCentroids]. rewrite filter_cons.
  destruct (Nat.ltb_spec 0 c) as [Hc|Hc].
  - destruct (IH counts t ltac:(lia)) as [Ht Hi].
    destruct (finishCentroids rand data sums counts t) as [rest t'].
    cbn [fst snd] in *. destruct (decide (c = 0)); [lia|].
    split; [done|]. intros [|i] sum count Hs Hcount; simpl in *.
    + injection Hs as <-. injection Hcount as <-. split; [done|lia].
    + by apply Hi.
  - destruct (IH counts (S t) ltac:(lia)) as [Ht Hi].
    destruct (finishCentroids rand data sums counts (S t)) as [rest t'].
    cbn [fst snd] in *. destruct (decide (c = 0)); [|lia].
    split; [simpl; lia|]. intros [|i] sum count Hs Hcount; simpl in *.
    + injection Hs as <-. injection Hcount as <-. split; [lia|].
      intros _. exists t. split; [lia|done].
    + destruct (Hi i sum count Hs Hcount) as [Hpos Hzero]. split; [done|].
      intros H0. destruct (Hzero H0) as (u & Hu & Hcs). exists u. split; [lia|done].
Qed.

Lemma empty_clusters_counted (members : nat -> list Vector) (l : list nat) :
  length (filter (fun c => c = 0) ((fun i => length (members i)) <$> l))
  = length (filter (fun i => members i = []) l).
Proof.
  induction l as [|i l IH]; [done|].
  rewrite fmap_cons, !filter_cons.
  destruct (members i) as [|v vs] eqn:Hm; simpl.
  - destruct (decide (0 = 0)); [|done]. simpl. by rewrite IH.
  - by destruct (decide (S (length vs) = 0)).
Qed.

Lemma counts_from_zero (members : nat -> list Vector) (n : nat) :
  imap (fun i c => c + length (members i)) (replicate n 0)
  = (fun i => length (members i)) <$> seq 0 n.
Proof.
  apply list_eq. intros i.
  rewrite list_lookup_imap, list_lookup_fmap.
  destruct (decide (i < n)) as [Hi|Hi].
  - by rewrite lookup_replicate_2, lookup_seq_lt.
  - rewrite lookup_seq_ge by lia.
    by rewrite (proj1 (lookup_replicate_None n 0 i)) by lia.
Qed.

Lemma updateCentroids_spec rand data k asg t :
  (0 <= k <= maxArrayLength)%Z ->
  length asg = length data ->
  Forall (fun a => a < Z.to_nat k) asg ->
  exists cs' t',
    updateCentroids rand data k asg t = Returned (cs', t')
    ∧ length cs' = Z.to_nat k
    ∧ t' = t + length (filter (fun i => clusterMembers data asg i = [])
                         (seq 0 (Z.to_nat k)))
    ∧ forall i, i < Z.to_nat k ->
        let members := clusterMembers data asg i in
        (members <> [] ->
         cs' !! i
         = Some ((fun x => (x / float_of_nat (length members))%float)
                   <$> vectorSum (length (default [] (head data))) members))
        ∧ (members = [] ->
           exists u, t <= u < t'
                     ∧ cs' !! i = Some (pick data (randomIndex rand u data))).
Proof.
  intros Hk Hlen Hall. unfold updateCentroids.
  rewrite validArrayLength by lia.
  rewrite accumulate_sums by (by rewrite ?length_replicate).
  rewrite counts_from_zero.
  set (sums := imap _ _). set (counts := _ <$> _).
  assert (Hs : length sums = Z.to_nat k).
  { unfold sums. by rewrite length_imap, length_replicate. }
  assert (Hc : length counts = length sums).
  { unfold counts. by rewrite length_fmap, length_seq. }
  destruct (finishCentroids_spec rand data sums counts t Hc) as [Ht Hi].
  pose proof (finishCentroids_length rand data sums counts t Hc) as Hl.
  destruct (finishCentroids rand data sums counts t) as [cs' t'].
  cbn [fst snd] in *. exists cs', t'. split; [done|]. split; [lia|].
  split.
  { rewrite Ht. unfold counts. by rewrite empty_clusters_counted. }
  intros i Hlt. set (members := clusterMembers data asg i).
  assert (Hsum : sums !! i
                 = Some (vectorSum (length (default [] (head data))) members)).
  { unfold sums. rewrite list_lookup_imap, lookup_replicate_2 by done. done. }
  assert (Hcount : counts !! i = Some (length members)).
  { unfold counts. rewrite list_lookup_fmap, lookup_seq_lt by done. done. }
  destruct (Hi i _ _ Hsum Hcount) as [Hpos Hzero]. split.
  - intros Hne. apply Hpos. destruct members; [done|simpl; lia].
  - intros Hnil. apply Hzero. by rewrite Hnil.
Qed.


(** Outside the lengths an array can have, the update step throws. *)
Lemma updateCentroids_invalid_k rand data k asg t :
  (k < 0 ∨ maxArrayLength < k)%Z ->
  updateCentroids rand data k asg t = Threw RangeError.
Proof.
  intros Hk. unfold updateCentroids.
  by rewrite (proj2 (invalidArrayLength_spec k)).
Qed.


(** ** The dimension of the centroids *)

Lemma addInto_length (acc x : Vector) :
  length x <= length acc -> length (addInto acc x) = length acc.
Proof.
  revert acc. induction x as [|xd x IH]; intros [|ad acc] Hlen; simpl in *;
    try done; try lia.
  f_equal. apply IH. lia.
Qed.

Lemma vectorSum_length d (members : list Vector) :
  Forall (fun v => length v = d) members ->
  length (vectorSum d members) = d.
Proof.
  unfold vectorSum. intros Hall.
  assert (Hacc : length (replicate d 0%float) = d) by apply length_replicate.
  revert Hacc. generalize (replicate d 0%float).
  induction Hall as [|v members Hv _ IH]; intros acc Hacc; simpl; [done|].
  apply IH. rewrite addInto_length; lia.
Qed.

Lemma clusterMembers_Forall (P : Vector -> Prop) data : forall asg i,
  Forall P data -> Forall P (clusterMembers data asg i).
Proof.
  induction data as [|x data IH]; intros [|a asg] i Hall;
    try by constructor.
  apply Forall_cons in Hall as [Hx Hall].
  rewrite clusterMembers_cons. apply Forall_app. split; [|by apply IH].
  destruct (decide (a = i)); by repeat constructor.
Qed.

Lemma pick_random_in_data rand u (data : list Vector) :
  data <> [] -> pick data (randomIndex rand u data) ∈ data.
Proof.
  intros Hne. unfold pick, randomIndex.
  assert (Hlt : rand u mod length data < length data).
  { apply Nat.mod_upper_bound. by destruct data. }
  destruct (data !! (rand u mod length data)) as [v|] eqn:Hv; simpl.
  - by apply list_elem_of_lookup_2 in Hv.
  - apply lookup_ge_None in Hv. unfold Vector in *. lia.
Qed.

Section Dimension.
Variables (rand : nat -> nat) (data : list Vector) (k : Z) (d : nat).
Hypothesis Hdims : Forall (fun v => length v = d) data.
Hypothesis Hdata : data <> [].
Hypothesis Hk : (1 <= k <= maxArrayLength)%Z.

Lemma updateCentroids_dimension asg t cs' t' :
  length asg = length data ->
  Forall (fun a => a < Z.to_nat k) asg ->
  updateCentroids rand data k asg t = Returned (cs', t') ->
  Forall (fun c => length c = d) cs'.
Proof.
  intros Hlen Hall Hrun.
  destruct (updateCentroids_spec rand data k asg t ltac:(lia) Hlen Hall)
    as (cs1 & t1 & Hrun1 & Hcs & _ & Hi).
  rewrite Hrun in Hrun1. injection Hrun1 as <- <-.
  apply Forall_lookup. intros i c Hc.
  assert (Hlt : i < Z.to_nat k).
  { apply lookup_lt_Some in Hc. unfold Vector in *. lia. }
  destruct (Hi i Hlt) as [Hfull Hempty].
  assert (Hhead : length (default [] (head data)) = d).
  { destruct data as [|v vs]; [done|]. simpl. by apply Forall_cons in Hdims as [? _]. }
  destruct (clusterMembers data asg i) as [|m ms] eqn:Hm.
  - destruct (Hempty eq_refl) as (u & _ & Hu).
    pose proof (eq_trans (eq_sym Hc) Hu) as Heq. injection Heq as ->. eapply Forall_forall in Hdims; [exact Hdims|].
    by apply pick_random_in_data.
  - specialize (Hfull ltac:(done)).
    pose proof (eq_trans (eq_sym Hc) Hfull) as Heq. injection Heq as ->.
    rewrite length_fmap, Hhead. apply vectorSum_length.
    rewrite <- Hm. by apply clusterMembers_Forall.
Qed.

Lemma iterate_dimension maxIterations : forall cs asg changed t r t',
  Forall (fun c => length c = d) cs ->
  length asg = length data ->
  length cs <= Z.to_nat k ->
  iterate maxIterations rand data k cs asg changed t = Returned (r, t') ->
  Forall (fun c => length c = d) (centroids r).
Proof.
  induction maxIterations as [|more IH]; intros cs asg changed t r t' Hcs Hlen Hle.
  { simpl. by intros [= <- <-]. }
  destruct changed; [|simpl; by intros [= <- <-]].
  rewrite iterate_step.
  pose proof (assignPoints_length cs data asg Hlen) as Hlen'.
  pose proof (assignPoints_bound cs (Z.to_nat k) data asg ltac:(lia) Hle) as Hall'.
  destruct (updateCentroids rand data k (assignPoints cs data asg).1 t)
    as [[cs' t1]|e|] eqn:Hupd; try done.
  apply IH; [|done|].
  - by eapply updateCentroids_dimension.
  - destruct (updateCentroids_spec rand data k (assignPoints cs data asg).1 t
                ltac:(lia) Hlen' Hall') as (cs1 & t2 & Hrun1 & Hl & _).
    rewrite Hupd in Hrun1. injection Hrun1 as <- <-. unfold Vector in *. lia.
Qed.
End Dimension.

(** X5.  If every input vector has dimension d, so does every centroid the
    engine returns. *)
Theorem kmeans_centroid_dimension fuel rand t data k maxIterations d r t' :
  Forall (fun v => length v = d) data ->
  kmeans fuel rand t data k maxIterations = Returned (r, t') ->
  Forall (fun c => length c = d) (centroids r).
Proof.
  intros Hdims Hrun.
  destruct (decide (data = [] ∨ k = 0%Z)) as [Htriv|Hnot].
  { rewrite kmeans_trivial_input in Hrun by done. injection Hrun as <- <-.
    constructor. }
  assert (Hdata : data <> []) by tauto.
  assert (Hk0 : k <> 0%Z) by tauto.
  unfold kmeans in Hrun.
  destruct data as [|v data]; [done|].
  destruct (Z.eqb_spec k 0); [done|]. simpl orb in Hrun. cbv iota in Hrun.
  destruct (initializeCentroids fuel rand t (v :: data) k) as [[cs t0]|] eqn:Hinit;
    [|done].
  assert (Hcs : Forall (fun c => length c = d) cs).
  { destruct (initializeLoop_indices rand (v :: data) k fuel [] ∅ t cs t0 [] Hinit)
      as (indices & -> & _ & Hrange); try done; [constructor..|].
    apply Forall_fmap. eapply Forall_impl; [exact Hrange|].
    intros i Hi. cbn beta in Hi. unfold compose, pick, Vector in *.
    destruct ((v :: data) !! i) as [w|] eqn:Hw; simpl.
    - apply list_elem_of_lookup_2 in Hw.
      rewrite Forall_forall in Hdims. exact (Hdims w Hw).
    - apply lookup_ge_None in Hw. unfold Vector in *. simpl in *. lia. }
  destruct (invalidArrayLength k) eqn:Hinvalid.
  - destruct maxIterations as [|more].
    + simpl in Hrun. by injection Hrun as <- <-.
    + cbn [iterate] in Hrun.
      destruct (assignPoints cs (v :: data) _) in Hrun.
      by rewrite Hinvalid in Hrun.
  - assert (Hk1 : (1 <= k <= maxArrayLength)%Z).
    { apply invalidArrayLength_false in Hinvalid. lia. }
    eapply (iterate_dimension rand (v :: data) k d Hdims Hdata Hk1);
      [exact Hcs| |  |exact Hrun].
    + by rewrite length_replicate.
    + apply initializeLoop_length in Hinit; [|simpl; lia].
      unfold Vector in *. lia.
Qed.

Lemma kmeans_centroid_dimension_witness :
  exists r t',
    kmeans 2 (fun i => i) 0 sepData 2 50 = Returned (r, t')
    ∧ Forall (fun c => length c = 2) (centroids r).
Proof.
  eexists _, _. split; [vm_compute; reflexivity|].
  apply (kmeans_centroid_dimension 2 (fun i => i) 0 sepData 2 50 2
           {| assignments := [0; 0; 0; 0];
              centroids := [[5; 5]; [10; 10]]%float |} 3).
  - repeat (constructor; [reflexivity|]). constructor.
  - vm_compute. reflexivity.
Defined.

(** ** Convergence *)

Lemma iterate_unchanged maxIterations rand data k cs asg t :
  iterate maxIterations rand data k cs asg false t
  = Returned ({| assignments := asg; centroids := cs |}, t).
Proof. by destruct maxIterations. Qed.

Lemma iterate_stable rand data k : forall m cs asg changed t,
  length asg = length data ->
  dropPosition (iterate m rand data k cs asg changed t)
  = dropPosition (iterate (S m) rand data k cs asg changed t) ->
  forall m', m <= m' ->
  dropPosition (iterate m' rand data k cs asg changed t)
  = dropPosition (iterate m rand data k cs asg changed t).
Proof.
  induction m as [|m IH]; intros cs asg changed t Hlen Hsame m' Hle.
  - destruct changed; [|by rewrite !iterate_unchanged].
    destruct m' as [|m']; [done|].
    rewrite iterate_step in Hsame |- *.
    pose proof (assignPoints_spec cs data asg Hlen) as Hassign.
    destruct (updateCentroids rand data k (assignPoints cs data asg).1 t)
      as [[cs' t1]|e|]; try done.
    simpl in Hsame. injection Hsame as Hasg Hcs.
    rewrite Hassign in Hasg |- *. cbn [fst snd] in *.
    rewrite bool_decide_eq_false_2 by (by intros H; apply H).
    rewrite iterate_unchanged. simpl. by rewrite <- Hasg, <- Hcs.
  - destruct changed; [|by rewrite !iterate_unchanged].
    destruct m' as [|m']; [lia|].
    rewrite (iterate_step (S m)) in Hsame. rewrite (iterate_step m) in Hsame |- *.
    rewrite (iterate_step m').
    pose proof (assignPoints_length cs data asg Hlen) as Hlen'.
    destruct (updateCentroids rand data k (assignPoints cs data asg).1 t)
      as [[cs' t1]|e|]; try done.
    apply IH; [done|done|lia].
Qed.

(** X6.  Once one more allowed iteration changes neither the labelling nor
    the centroids, no number of further iterations does: the result for
    maxIterations = m is the result for every larger bound. *)
Theorem kmeans_stable_once_unchanged fuel rand t data k m :
  dropPosition (kmeans fuel rand t data k m)
  = dropPosition (kmeans fuel rand t data k (S m)) ->
  forall m', m <= m' ->
  dropPosition (kmeans fuel rand t data k m')
  = dropPosition (kmeans fuel rand t data k m).
Proof.
  unfold kmeans. destruct ((length data =? 0) || (k =? 0)%Z); [done|].
  destruct (initializeCentroids fuel rand t data k) as [[cs t0]|]; [|done].
  intros Hsame m' Hle. apply iterate_stable; try done.
  by rewrite length_replicate.
Qed.

Lemma kmeans_stable_once_unchanged_witness :
  dropPosition (kmeans 2 (fun i => i) 0 sepData 2 1)
  = dropPosition (kmeans 2 (fun i => i) 0 sepData 2 2)
  ∧ dropPosition (kmeans 2 (fun i => i) 0 sepData 2 50)
    = dropPosition (kmeans 2 (fun i => i) 0 sepData 2 1).
Proof.
  split; [vm_compute; reflexivity|].
  apply (kmeans_stable_once_unchanged 2 (fun i => i) 0 sepData 2 1).
  - vm_compute. reflexivity.
  - lia.
Defined.

(** * Further properties of the pipeline *)

(** ** Strings *)

Lemma append_cons (c : ascii) (s t : string) :
  String c s +:+ t = String c (s +:+ t).
Proof. reflexivity. Qed.

Lemma append_empty_r (s : string) : s +:+ EmptyString = s.
Proof. induction s as [|c s IH]; [done|]. by rewrite append_cons, IH. Qed.

Lemma chars_append (s1 s2 : string) : chars (s1 +:+ s2) = chars s1 ++ chars s2.
Proof. induction s1 as [|c s1 IH]; simpl; [done|]. by rewrite IH. Qed.

Lemma chars_inj (s1 s2 : string) : chars s1 = chars s2 -> s1 = s2.
Proof.
  intros Heq. rewrite <- (string_of_list_ascii_of_string s1).
  rewrite <- (string_of_list_ascii_of_string s2). unfold chars in Heq.
  by rewrite Heq.
Qed.

Lemma trimStart_keeps (s : string) (c : ascii) :
  isWhiteSpace c = false -> c ∈ chars s -> c ∈ chars (trimStart s).
Proof.
  intros Hc. induction s as [|c0 s IH]; simpl; [done|].
  intros Hin. destruct (isWhiteSpace c0) eqn:Hc0; [|done].
  apply elem_of_cons in Hin as [->|Hin]; [congruence|]. by apply IH.
Qed.

Lemma trimEnd_keeps (s : string) (c : ascii) :
  isWhiteSpace c = false -> c ∈ chars s -> c ∈ chars (trimEnd s).
Proof.
  intros Hc. induction s as [|c0 s IH]; simpl; [done|].
  intros Hin. apply elem_of_cons in Hin as [->|Hin].
  - destruct (trimEnd s); [rewrite Hc|]; apply list_elem_of_here.
  - specialize (IH Hin). destruct (trimEnd s) as [|c1 s1]; [by inversion IH|].
    by apply list_elem_of_further.
Qed.

Lemma trimStart_head (s : string) :
  match trimStart s with
  | EmptyString => True
  | String c _ => isWhiteSpace c = false
  end.
Proof.
  induction s as [|c s IH]; simpl; [done|].
  by destruct (isWhiteSpace c) eqn:Hc.
Qed.

Lemma trimEnd_head (s : string) :
  match s with
  | EmptyString => True
  | String c _ => isWhiteSpace c = false -> head (chars (trimEnd s)) = Some c
  end.
Proof.
  destruct s as [|c s]; [done|]. intros Hc. simpl.
  destruct (trimEnd s); [by rewrite Hc|done].
Qed.

Lemma trimEnd_last (s : string) (c : ascii) :
  last (chars (trimEnd s)) = Some c -> isWhiteSpace c = false.
Proof.
  induction s as [|c0 s IH]; simpl; [done|].
  destruct (trimEnd s) as [|c1 s1].
  - destruct (isWhiteSpace c0) eqn:Hc0; simpl; [done|]. by intros [= <-].
  - simpl in *. done.
Qed.

Lemma trim_ends (s : string) :
  (forall c, head (chars (trim s)) = Some c -> isWhiteSpace c = false)
  ∧ (forall c, last (chars (trim s)) = Some c -> isWhiteSpace c = false).
Proof.
  unfold trim. split; intros c Hc; [|by apply trimEnd_last in Hc].
  pose proof (trimStart_head s) as Hhead.
  pose proof (trimEnd_head (trimStart s)) as Hend.
  destruct (trimStart s) as [|c0 s0]; [done|].
  rewrite (Hend Hhead) in Hc. by injection Hc as <-.
Qed.

Lemma removeQuotes_clean (s : string) : doubleQuote ∉ chars (removeQuotes s).
Proof.
  induction s as [|c s IH]; simpl; [apply not_elem_of_nil|].
  destruct (Nat.eqb_spec (nat_of_ascii c) 34) as [Hq|Hq]; [done|].
  simpl. apply not_elem_of_cons. split; [|done].
  intros <-. by apply Hq.
Qed.

(** ** The text that is embedded *)

(** X7.  The text embedded for a project is never empty and neither starts
    nor ends with white space, whatever the title and the prompts are. *)
Theorem embedded_text_shape (p : Project) :
  embedText p <> EmptyString
  ∧ (forall c, head (chars (embedText p)) = Some c -> isWhiteSpace c = false)
  ∧ (forall c, last (chars (embedText p)) = Some c -> isWhiteSpace c = false).
Proof.
  split; [|apply trim_ends].
  unfold embedText, trim.
  set (s := (title p +:+ _)%string).
  assert (Hdot : "."%char ∈ chars s).
  { unfold s. rewrite !chars_append. apply elem_of_app. right.
    apply list_elem_of_here. }
  apply (trimStart_keeps s "."%char eq_refl) in Hdot.
  apply (trimEnd_keeps _ "."%char eq_refl) in Hdot.
  intros Hnil. rewrite Hnil in Hdot. by inversion Hdot.
Qed.

(** ** The calls of a run *)

Lemma nameBuckets_returned ai projects ids asg :
  length asg = length ids ->
  forall buckets log cs log',
  nameBuckets ai projects ids asg buckets log = (Returned cs, log') ->
  log' = log ++ ((fun c => NameCall (namingText projects <$> projectIds c)) <$> cs)
  ∧ Forall (fun c =>
      exists responseText,
        generateContent ai
          (clusterNamePrompt (namingText projects <$> projectIds c))
        = Some responseText
        ∧ name c = removeQuotes (trim responseText)) cs.
Proof.
  intros Hlen. induction buckets as [|i buckets IH]; intros log cs log';
    cbn [nameBuckets].
  { intros [= <- <-]. by rewrite app_nil_r. }
  pose proof (projectIndices_mapM ids asg i Hlen) as HmapM.
  destruct (projectIndicesOf asg i) as [|index0 indices] eqn:Hindices.
  - apply IH.
  - rewrite HmapM. unfold generateClusterName.
    destruct (generateContent ai _) as [responseText|] eqn:Hcontent; [|done].
    destruct (nameBuckets ai projects ids asg buckets _) as [o1 log1] eqn:Hrest.
    destruct o1 as [cs1|e|]; intros Hrun; try done.
    injection Hrun as <- <-.
    destruct (IH _ _ _ Hrest) as [-> Hall]. split.
    + rewrite fmap_cons. cbn [projectIds]. by rewrite <- app_assoc.
    + constructor; [|done]. exists responseText. by split.
Qed.

(** X8.  A run that ends without an error has made one embedding call with
    the texts of the eligible projects, one call of the engine on as many
    vectors with k = min(3, number of eligible projects), and then one
    naming call per returned cluster, in the order of the clusters; there
    are at most min(3, number of eligible projects) clusters. *)
Theorem successful_run_calls ai fuel rand t projects st st' log :
  handleClusterProjects ai fuel rand t projects st = Some (st', log) ->
  clusteringError st' = None ->
  let eligible := projectsWithPrompts projects in
  exists newClusters vectors,
    clusters st' = Some newClusters
    ∧ length vectors = length eligible
    ∧ log = EmbedCall (embedText <$> eligible)
            :: KMeansCall vectors (Z.of_nat (length eligible `min` 3))
            :: ((fun c => NameCall (namingText projects <$> projectIds c))
                  <$> newClusters)
    ∧ length newClusters <= length eligible `min` 3.
Proof.
  intros Hrun Hok eligible.
  apply handle_outcome in Hrun as [(_ & Herr & _)|(_ & o & Hbody & Hst)].
  { by rewrite Hok in Herr. }
  destruct o as [cs|e|]; [|by subst st'|done].
  apply clusterBody_cases in Hbody
    as [(_ & ? & _)
       |[(vectors & _ & [[? ?]|?] & _)|(vectors & _ & Hlen & Hkmeans)]];
    try done.
  destruct (kmeans _ _ _ _ _ _) as [[r t']|e|] eqn:Hk;
    [|by destruct Hkmeans..].
  destruct (nameBuckets_in_pipeline _ _ _ _ _ _ _ _ _ _ Hlen Hk Hkmeans)
    as (Hasg & _ & calls & _ & Hcs & _).
  apply nameBuckets_returned in Hkmeans as [-> _];
    [|by rewrite length_fmap].
  exists cs, vectors. subst st'. repeat split; try done.
  rewrite <- (length_fmap projectIds cs), Hcs.
  etrans; [apply length_filter|]. by rewrite length_fmap, length_seq.
Qed.

Lemma successful_run_calls_witness :
  exists newClusters vectors,
    clusters twinState = Some newClusters
    ∧ length vectors = length (projectsWithPrompts sampleProjects)
    ∧ twinLog = EmbedCall (embedText <$> projectsWithPrompts sampleProjects)
                :: KMeansCall vectors
                     (Z.of_nat (length (projectsWithPrompts sampleProjects) `min` 3))
                :: ((fun c => NameCall (namingText sampleProjects <$> projectIds c))
                      <$> newClusters)
    ∧ length newClusters <= length (projectsWithPrompts sampleProjects) `min` 3.
Proof.
  apply (successful_run_calls twinAi 3 (fun i => i) 0 sampleProjects idle
           twinState twinLog).
  - vm_compute. reflexivity.
  - reflexivity.
Defined.

(** X9.  In a run that ends without an error every cluster name is the
    provider's answer to the prompt built from the texts of at most the
    first five members, trimmed and with every double quote removed: no
    name contains a double quote. *)
Theorem cluster_names_are_cleaned ai fuel rand t projects st st' log newClusters :
  handleClusterProjects ai fuel rand t projects st = Some (st', log) ->
  clusteringError st' = None ->
  clusters st' = Some newClusters ->
  Forall (fun c =>
    (doubleQuote ∉ chars (name c))
    ∧ exists responseText,
        generateContent ai
          (clusterNamePrompt (take 5 (namingText projects <$> projectIds c)))
        = Some responseText
        ∧ name c = removeQuotes (trim responseText)) newClusters.
Proof.
  intros Hrun Hok Hclusters.
  apply handle_outcome in Hrun as [(_ & Herr & _)|(_ & o & Hbody & Hst)].
  { by rewrite Hok in Herr. }
  destruct o as [cs|e|]; [|by subst st'|done].
  subst st'. simpl in Hclusters. injection Hclusters as ->.
  apply clusterBody_cases in Hbody
    as [(_ & ? & _)
       |[(vectors & _ & [[? ?]|?] & _)|(vectors & _ & Hlen & Hkmeans)]];
    try done.
  destruct (kmeans _ _ _ _ _ _) as [[r t']|e|] eqn:Hk;
    [|by destruct Hkmeans..].
  destruct (nameBuckets_in_pipeline _ _ _ _ _ _ _ _ _ _ Hlen Hk Hkmeans)
    as (Hasg & _).
  apply nameBuckets_returned in Hkmeans as [_ Hall];
    [|by rewrite length_fmap].
  eapply Forall_impl; [exact Hall|].
  intros c (responseText & Hcontent & Hname). cbn beta. split.
  - rewrite Hname. apply removeQuotes_clean.
  - exists responseText. split; [|done].
    unfold clusterNamePrompt in *. by rewrite take_take, Nat.min_id.
Qed.

Lemma cluster_names_are_cleaned_witness :
  exists newClusters,
    clusters twinState = Some newClusters
    ∧ Forall (fun c =>
        (doubleQuote ∉ chars (name c))
        ∧ exists responseText,
            generateContent twinAi
              (clusterNamePrompt (take 5 (namingText sampleProjects <$> projectIds c)))
            = Some responseText
            ∧ name c = removeQuotes (trim responseText)) newClusters.
Proof.
  eexists. split; [reflexivity|].
  apply (cluster_names_are_cleaned twinAi 3 (fun i => i) 0 sampleProjects idle
           twinState twinLog).
  - vm_compute. reflexivity.
  - reflexivity.
  - reflexivity.
Defined.

(** X10.  With at least two projects, a failing embedding call ends the run
    with no clusters and the message of [embedContentBatch] as the error;
    neither the engine nor the naming provider is called. *)
Theorem embedding_failure_aborts_run ai fuel rand t projects st :
  2 <= length projects ->
  batchEmbedContents ai (embedText <$> projectsWithPrompts projects) = None ->
  handleClusterProjects ai fuel rand t projects st
  = Some ({| clusters := None;
             isClustering := false;
             clusteringError := Some "Failed to generate embeddings." |},
          [EmbedCall (embedText <$> projectsWithPrompts projects)]).
Proof.
  intros Hlen Hfail. unfold handleClusterProjects.
  destruct (Nat.ltb_spec (length projects) 2); [lia|].
  unfold clusterBody, embedContentBatch.
  rewrite !promptsToEmbed_texts. by rewrite Hfail.
Qed.

Lemma embedding_failure_aborts_run_witness :
  handleClusterProjects downAi 3 (fun i => i) 0 sampleProjects idle
  = Some ({| clusters := None;
             isClustering := false;
             clusteringError := Some "Failed to generate embeddings." |},
          [EmbedCall (embedText <$> projectsWithPrompts sampleProjects)]).
Proof.
  apply (embedding_failure_aborts_run downAi 3 (fun i => i) 0 sampleProjects idle).
  - simpl. lia.
  - reflexivity.
Defined.

(** * The utilities *)

(** ** utils/cryptoUtils.ts *)

Lemma hex_byte (b : nat) :
  b < 256 ->
  padStart 2 "0" (toString16 b)
  = String (hexDigit (b / 16)) (String (hexDigit (b mod 16)) EmptyString).
Proof.
  intros Hb.
  assert (Hall : forallb (fun b =>
            String.eqb (padStart 2 "0" (toString16 b))
              (String (hexDigit (b / 16))
                 (String (hexDigit (b mod 16)) EmptyString)))
            (seq 0 256) = true) by (vm_compute; reflexivity).
  rewrite forallb_forall in Hall.
  apply String.eqb_eq, Hall, in_seq. lia.
Qed.

Lemma hexDigit_is_hex (d : nat) : isHexChar (hexDigit d) = true.
Proof. do 16 (destruct d as [|d]; [done|]). done. Qed.

Lemma hexDigit_inj (d1 d2 : nat) :
  d1 < 16 -> d2 < 16 -> hexDigit d1 = hexDigit d2 -> d1 = d2.
Proof.
  intros H1 H2.
  do 16 (destruct d1 as [|d1]; [do 16 (destruct d2 as [|d2]; [done|]); lia|]).
  lia.
Qed.

Lemma join_empty_cons (s : string) (l : list string) :
  join EmptyString (s :: l) = s +:+ join EmptyString l.
Proof.
  destruct l as [|s' l]; [|done]. cbn [join]. by rewrite append_empty_r.
Qed.

Lemma hashHex_cons (b : nat) (bytes : list nat) :
  b < 256 ->
  hashHex (b :: bytes)
  = String (hexDigit (b / 16)) (String (hexDigit (b mod 16)) (hashHex bytes)).
Proof.
  intros Hb. unfold hashHex. rewrite map_cons, join_empty_cons.
  by rewrite hex_byte, !append_cons.
Qed.

Lemma hashHex_chars (hashArray : list nat) :
  Forall (fun b => b < 256) hashArray ->
  String.length (hashHex hashArray) = 2 * length hashArray
  ∧ Forall (fun c => isHexChar c = true) (chars (hashHex hashArray)).
Proof.
  induction 1 as [|b bytes Hb _ [IHlen IHall]]; [by split|].
  rewrite hashHex_cons by done. simpl. split; [lia|].
  repeat constructor; try apply hexDigit_is_hex. done.
Qed.

Lemma hashHex_inj (bytes1 bytes2 : list nat) :
  Forall (fun b => b < 256) bytes1 ->
  Forall (fun b => b < 256) bytes2 ->
  hashHex bytes1 = hashHex bytes2 ->
  bytes1 = bytes2.
Proof.
  intros H1. revert bytes2.
  induction H1 as [|b1 bytes1 Hb1 _ IH]; intros bytes2 H2 Heq.
  - destruct H2 as [|b2 bytes2 Hb2 _]; [done|].
    by rewrite hashHex_cons in Heq.
  - destruct H2 as [|b2 bytes2 Hb2 H2]; rewrite hashHex_cons in Heq by done;
      [done|].
    rewrite hashHex_cons in Heq by done.
    pose proof (Nat.div_mod_eq b1 16) as Hdm1.
    pose proof (Nat.div_mod_eq b2 16) as Hdm2.
    assert (Hh1 : b1 / 16 < 16) by (apply Nat.Div0.div_lt_upper_bound; lia).
    assert (Hh2 : b2 / 16 < 16) by (apply Nat.Div0.div_lt_upper_bound; lia).
    assert (Hl1 : b1 mod 16 < 16) by (apply Nat.mod_upper_bound; lia).
    assert (Hl2 : b2 mod 16 < 16) by (apply Nat.mod_upper_bound; lia).
    revert Heq Hdm1 Hdm2 Hh1 Hh2 Hl1 Hl2.
    generalize (b1 / 16) (b2 / 16) (b1 mod 16) (b2 mod 16).
    intros h1 h2 l1 l2 Heq Hdm1 Hdm2 Hh1 Hh2 Hl1 Hl2.
    injection Heq as Hhi Hlo Hrest.
    apply hexDigit_inj in Hhi; [|done..].
    apply hexDigit_inj in Hlo; [|done..].
    f_equal; [lia|by apply IH].
Qed.

(** X11.  The hash is written with two lower-case hexadecimal digits per
    byte of the digest: for the 32 bytes of SHA-256 it has 64 characters,
    all of them in 0-9 and a-f. *)
Theorem generateSha256Hash_shape encode digest (input : HashInput) :
  (forall data, length (digest data) = 32
                ∧ Forall (fun b => b < 256) (digest data)) ->
  String.length (generateSha256Hash encode digest input) = 64
  ∧ Forall (fun c => isHexChar c = true)
      (chars (generateSha256Hash encode digest input)).
Proof.
  intros Hdigest. unfold generateSha256Hash.
  destruct (Hdigest (hashData encode input)) as [Hlen Hbytes].
  destruct (hashHex_chars _ Hbytes) as [Hl Hc]. split; [|done].
  rewrite Hl, Hlen. done.
Qed.

Lemma generateSha256Hash_shape_witness :
  String.length
    (generateSha256Hash (fun _ => [104; 105]) (fun _ => replicate 32 171)
       (TextInput "hi")) = 64
  ∧ Forall (fun c => isHexChar c = true)
      (chars (generateSha256Hash (fun _ => [104; 105])
                (fun _ => replicate 32 171) (TextInput "hi"))).
Proof.
  apply (generateSha256Hash_shape (fun _ => [104; 105])
           (fun _ => replicate 32 171) (TextInput "hi")).
  intros _. split; [reflexivity|]. apply Forall_replicate. lia.
Defined.

(** X12.  The hexadecimal rendering loses nothing: two inputs get the same
    hash string only if their digests are the same bytes. *)
Theorem generateSha256Hash_same_digest encode digest (input1 input2 : HashInput) :
  (forall data, Forall (fun b => b < 256) (digest data)) ->
  generateSha256Hash encode digest input1
  = generateSha256Hash encode digest input2 ->
  digest (hashData encode input1) = digest (hashData encode input2).
Proof. intros Hdigest. by apply hashHex_inj. Qed.

Lemma generateSha256Hash_same_digest_witness :
  generateSha256Hash (fun _ => [104; 105]) (fmap (fun b => b mod 256))
    (TextInput "hi")
  = generateSha256Hash (fun _ => [104; 105]) (fmap (fun b => b mod 256))
      (BufferInput [104; 105])
  ∧ (fun b => b mod 256) <$> hashData (fun _ => [104; 105]) (TextInput "hi")
    = (fun b => b mod 256)
        <$> hashData (fun _ => [104; 105]) (BufferInput [104; 105]).
Proof.
  split; [reflexivity|].
  apply (generateSha256Hash_same_digest (fun _ => [104; 105])
           (fmap (fun b => b mod 256)) (TextInput "hi") (BufferInput [104; 105])).
  - intros data. apply Forall_fmap, Forall_true. intros b. cbn beta.
    unfold compose. apply Nat.mod_upper_bound. lia.
  - reflexivity.
Defined.

(** ** utils/fileUtils.ts *)

Lemma splitOn_no_separator (sep : ascii) (s : string) :
  sep ∉ chars s -> splitOn sep s = [s].
Proof.
  induction s as [|c s IH]; simpl; [done|].
  intros Hnot. apply not_elem_of_cons in Hnot as [Hne Hnot].
  destruct (decide (c = sep)); [congruence|]. by rewrite IH.
Qed.

Lemma splitOn_append (sep : ascii) (s1 s2 : string) :
  sep ∉ chars s1 ->
  splitOn sep (s1 +:+ String sep s2) = s1 :: splitOn sep s2.
Proof.
  induction s1 as [|c s1 IH]; intros Hnot.
  - change (EmptyString +:+ String sep s2) with (String sep s2).
    cbn [splitOn]. by destruct (decide (sep = sep)).
  - apply not_elem_of_cons in Hnot as [Hne Hnot].
    change (String c s1 +:+ String sep s2) with (String c (s1 +:+ String sep s2)).
    cbn [splitOn]. destruct (decide (c = sep)); [congruence|]. by rewrite IH.
Qed.

Lemma splitOn_pieces_clean (sep : ascii) (s : string) :
  Forall (fun piece => sep ∉ chars piece) (splitOn sep s).
Proof.
  induction s as [|c s IH]; cbn [splitOn].
  - repeat constructor. apply not_elem_of_nil.
  - destruct (decide (c = sep)).
    + constructor; [apply not_elem_of_nil|done].
    + destruct (splitOn sep s) as [|piece pieces].
      * repeat constructor. simpl. apply not_elem_of_cons. split; [congruence|].
        apply not_elem_of_nil.
      * apply Forall_cons in IH as [Hpiece Hpieces]. constructor; [|done].
        simpl. apply not_elem_of_cons. split; [congruence|done].
Qed.

(** X13.  From a data URL, a header without a comma, a comma and a
    non-empty payload without a comma, [fileToBase64] resolves with exactly
    the payload. *)
Theorem fileToBase64_data_url (header payload : string) :
  (","%char ∉ chars header) ->
  (","%char ∉ chars payload) ->
  payload <> EmptyString ->
  fileToBase64 (Loaded (Some (header +:+ String "," payload))) = Returned payload.
Proof.
  intros Hheader Hpayload Hne. unfold fileToBase64.
  rewrite splitOn_append, splitOn_no_separator by done. simpl.
  by destruct payload.
Qed.

Lemma fileToBase64_data_url_witness :
  fileToBase64 (Loaded (Some ("data:image/png;base64" +:+ String "," "aGVsbG8=")))
  = Returned "aGVsbG8=".
Proof.
  apply (fileToBase64_data_url "data:image/png;base64" "aGVsbG8=").
  - vm_compute. set_solver.
  - vm_compute. set_solver.
  - discriminate.
Defined.

Lemma split_at_first (sep : ascii) (s : string) :
  (sep ∉ chars s)
  ∨ exists header rest, (sep ∉ chars header) ∧ s = header +:+ String sep rest.
Proof.
  induction s as [|c s IH].
  - left. apply not_elem_of_nil.
  - destruct (decide (c = sep)) as [->|Hne].
    + right. exists EmptyString, s. split; [apply not_elem_of_nil|done].
    + destruct IH as [Hnot|(header & rest & Hheader & ->)].
      * left. simpl. apply not_elem_of_cons. by split.
      * right. exists (String c header), rest. split; [|done].
        simpl. apply not_elem_of_cons. by split.
Qed.

(** X14.  What [fileToBase64] does with the reader's string is decided by
    the piece between the first comma and the next one, or the end of the
    string: if that piece is not empty the promise resolves with exactly
    that piece, which contains no comma; if the string has no comma, or the
    piece is empty, the promise is rejected with the error 'Could not
    extract base64 string from file.' *)
Theorem fileToBase64_resolves (result : string) :
  match fileToBase64 (Loaded (Some result)) with
  | Returned base64String =>
      base64String <> EmptyString
      ∧ (","%char ∉ chars base64String)
      ∧ exists header,
          (","%char ∉ chars header)
          ∧ (result = header +:+ String "," base64String
             ∨ exists rest,
                 result = header +:+ String "," (base64String +:+ String "," rest))
  | Threw e =>
      e = Error "Could not extract base64 string from file."
      ∧ ((","%char ∉ chars result)
         ∨ exists header,
             (","%char ∉ chars header)
             ∧ (result = header +:+ String "," EmptyString
                ∨ exists rest,
                    result = header +:+ String "," (String "," rest)))
  | Unfinished => False
  end.
Proof.
  unfold fileToBase64.
  destruct (split_at_first "," result) as [Hnone|(header & tail & Hheader & ->)].
  { rewrite splitOn_no_separator by done. simpl. split; [done|by left]. }
  rewrite splitOn_append by done. cbn [lookup list_lookup].
  destruct (split_at_first "," tail) as [Hnone|(piece & rest & Hpiece & ->)].
  - rewrite splitOn_no_separator by done. cbn [lookup list_lookup].
    destruct tail as [|c tail]; cbn [truthy].
    + split; [done|]. right. exists header. split; [done|by left].
    + split; [done|]. split; [done|]. exists header. split; [done|by left].
  - rewrite splitOn_append by done. cbn [lookup list_lookup].
    destruct piece as [|c piece]; cbn [truthy].
    + split; [done|]. right. exists header. split; [done|]. right. by exists rest.
    + split; [done|]. split; [done|]. exists header. split; [done|].
      right. by exists rest.
Qed.

(** Nothing between the first comma and the next: rejected, although a
    non-empty piece follows. *)
Example fileToBase64_empty_piece :
  fileToBase64 (Loaded (Some "a,,b"))
  = Threw (Error "Could not extract base64 string from file.")
  ∧ fileToBase64 (Loaded (Some "data:text/plain;base64,aGk=,rest"))
    = Returned "aGk=".
Proof. split; vm_compute; reflexivity. Qed.

(** ** services/geminiService.ts: the score clamp *)

(** X15.  Whatever number the model answers, the score that
    [predictEngagementScore] returns lies between 0 and 1, and the
    explanation is passed on unchanged. *)
Theorem engagement_score_clamped (score : float) (explanation : string) :
  is_nan score = false ->
  exists clamped,
    predictEngagementScore (Some (score, explanation))
    = Returned (clamped, explanation)
    ∧ (0 <=? clamped)%float = true
    ∧ (clamped <=? 1)%float = true.
Proof.
  intros Hnan. eexists. split; [reflexivity|].
  unfold mathMin, mathMax.
  change (is_nan 1) with false. change (is_nan 0) with false. rewrite Hnan.
  cbn [orb].
  destruct (score <? 1)%float eqn:Hlt1.
  - rewrite Hnan.
    destruct (0 <? score)%float eqn:Hlt0.
    + split; by apply ltb_leb.
    + destruct (score <? 0)%float; [done|]. done.
  - change (1 <? score)%float with (1 <? score)%float.
    destruct (1 <? score)%float eqn:Hgt1; [|done]. done.
Qed.

Lemma engagement_score_clamped_witness :
  exists clamped,
    predictEngagementScore (Some (1.75%float, "viral"))
    = Returned (clamped, "viral")
    ∧ (0 <=? clamped)%float = true
    ∧ (clamped <=? 1)%float = true.
Proof.
  apply (engagement_score_clamped 1.75%float "viral"). reflexivity.
Defined.

(** * The application state *)

(** ** App.tsx: the project handlers *)

Lemma handleUpdateProject_ids now updatedProject app :
  projectId <$> projects (handleUpdateProject now updatedProject app)
  = projectId <$> projects app.
Proof.
  unfold handleUpdateProject. cbn [projects].
  induction (projects app) as [|p ps IH]; [done|].
  rewrite map_cons, !fmap_cons, IH. f_equal.
  destruct (bool_decide_reflect (projectId p = projectId updatedProject)); done.
Qed.

Lemma handleSetCurrentPage_ids now page app :
  projectId <$> projects (handleSetCurrentPage now page app)
  = projectId <$> projects app.
Proof.
  unfold handleSetCurrentPage. cbn [projects].
  destruct (selectedProjectId app) as [sid|]; [|done].
  destruct (truthy sid && negb (isToolPage page)); [|done].
  destruct (findProject sid (projects app)) as [p|]; [|done].
  destruct (bool_decide _); [|done]. apply handleUpdateProject_ids.
Qed.

(** X16.  No handler deletes, duplicates or reorders projects: the list of
    project identifiers is left as it is by every handler except
    [handleCreateProject], which puts the new identifier, proj- followed by
    the time, in front. *)
Theorem handlers_keep_projects (e : AppEvent) (app : App) :
  let ids := projectId <$> projects app in
  let ids' := projectId <$> projects (handleEvent e app) in
  match e with
  | CreateProject idTime _ => ids' = ("proj-" +:+ pretty idTime) :: ids
  | _ => ids' = ids
  end.
Proof.
  destruct e as [now p|now page|idTime now|pid|]; cbn [handleEvent].
  - apply handleUpdateProject_ids.
  - apply handleSetCurrentPage_ids.
  - done.
  - unfold handleSelectProject. by destruct (findProject pid (projects app)).
  - done.
Qed.

Lemma findProject_id pid ps p : findProject pid ps = Some p -> projectId p = pid.
Proof.
  unfold findProject. intros H. apply find_some in H as [_ H].
  by apply bool_decide_eq_true in H.
Qed.

Lemma findProject_map (f : StoredProject -> StoredProject) pid ps :
  (forall p, projectId (f p) = projectId p) ->
  findProject pid (map f ps) = f <$> findProject pid ps.
Proof.
  intros Hf. unfold findProject. induction ps as [|p ps IH]; [done|].
  simpl. rewrite Hf. by destruct (bool_decide (projectId p = pid)).
Qed.

(** X17.  A project is reopened on the page it was left on: after the user
    goes to a generation page of the selected project, returns to the
    dashboard and selects the project again, that page is shown. *)
Theorem project_reopens_on_last_page now page app sid p :
  selectedProjectId app = Some sid ->
  sid <> EmptyString ->
  findProject sid (projects app) = Some p ->
  isToolPage page = false ->
  let app' :=
    handleSelectProject sid (backToDashboard (handleSetCurrentPage now page app)) in
  currentPage app' = page ∧ selectedProjectId app' = Some sid.
Proof.
  intros Hsel Hsid Hfind Htool.
  assert (Hfound : exists q,
            findProject sid (projects (handleSetCurrentPage now page app)) = Some q
            ∧ lastActivePage q = Some page).
  { unfold handleSetCurrentPage. rewrite Hsel, Hfind, Htool.
    destruct sid; [done|]. cbn [truthy negb andb projects].
    destruct (bool_decide_reflect (lastActivePage p <> Some page)) as [Hne|Heq].
    - unfold handleUpdateProject. cbn [projects].
      rewrite findProject_map.
      + rewrite Hfind. cbn [fmap option_fmap option_map].
        apply findProject_id in Hfind. unfold projectId in *. cbn [project] in *.
        rewrite bool_decide_eq_true_2 by done. by eexists.
      + intros q.
        destruct (bool_decide_reflect
                    (projectId q
                     = projectId {| project := project p; assets := assets p;
                                    lastModified := lastModified p;
                                    lastActivePage := Some page |}))
          as [Heq|_]; [|done].
        by rewrite Heq.
    - exists p. split; [done|]. by destruct (decide (lastActivePage p = Some page)). }
  destruct Hfound as (q & Hq & Hpage).
  unfold handleSelectProject, backToDashboard. cbn [projects].
  rewrite Hq, Hpage, Htool. by split.
Qed.

Lemma project_reopens_on_last_page_witness :
  currentPage (handleSelectProject "p1"
                 (backToDashboard (handleSetCurrentPage 7 PageVideo sampleApp)))
  = PageVideo
  ∧ selectedProjectId
      (handleSelectProject "p1"
         (backToDashboard (handleSetCurrentPage 7 PageVideo sampleApp)))
    = Some "p1".
Proof.
  apply (project_reopens_on_last_page 7 PageVideo sampleApp "p1"
           (stored (mkProject "p1" "Cats" "a poem about cats"))).
  - reflexivity.
  - discriminate.
  - reflexivity.
  - reflexivity.
Defined.

(** X18.  An update for a project that is not in the list changes nothing:
    [handleUpdateProject] never adds a project. *)
Theorem update_of_unknown_project now updatedProject app :
  Forall (fun p => projectId p <> projectId updatedProject) (projects app) ->
  handleUpdateProject now updatedProject app = app.
Proof.
  intros Hall. destruct app as [page ps sel]. unfold handleUpdateProject.
  cbn [currentPage projects selectedProjectId] in *. f_equal.
  induction Hall as [|p ps Hp _ IH]; [done|].
  rewrite map_cons, IH. by rewrite bool_decide_eq_false_2.
Qed.

Lemma update_of_unknown_project_witness :
  handleUpdateProject 7 (stored (mkProject "p9" "Birds" "a haiku")) sampleApp
  = sampleApp.
Proof.
  apply (update_of_unknown_project 7 (stored (mkProject "p9" "Birds" "a haiku"))
           sampleApp).
  repeat (constructor; [discriminate|]). constructor.
Defined.

Lemma namingText_cons_other (p : Project) (ps : list Project) (pid : string) :
  id p <> pid -> namingText (p :: ps) pid = namingText ps pid.
Proof.
  intros Hne. unfold namingText. simpl.
  by rewrite bool_decide_eq_false_2.
Qed.

Lemma nameBuckets_other_projects ai (ps1 ps2 : list Project) ids asg :
  (forall pid, pid ∈ ids -> namingText ps1 pid = namingText ps2 pid) ->
  forall buckets log,
  nameBuckets ai ps1 ids asg buckets log = nameBuckets ai ps2 ids asg buckets log.
Proof.
  intros Hsame. induction buckets as [|i buckets IH]; intros log; [done|].
  cbn [nameBuckets].
  destruct (projectIndicesOf asg i) as [|index0 indices]; [apply IH|].
  destruct (mapM (fun index => ids !! index) (index0 :: indices))
    as [members|] eqn:Hmembers; [|done].
  assert (Heq : map (namingText ps1) members = map (namingText ps2) members).
  { apply map_ext_in. intros pid Hin. apply Hsame.
    apply mapM_Some_1 in Hmembers.
    apply list_elem_of_In in Hin.
    apply list_elem_of_lookup_1 in Hin as [j Hj].
    destruct (Forall2_lookup_r _ _ _ _ _ Hmembers Hj) as (index & _ & Hindex).
    by apply list_elem_of_lookup_2 in Hindex. }
  rewrite Heq. destruct (generateClusterName ai _); [|done..].
  by rewrite IH.
Qed.

(** X19.  A project that has just been created does not change what the
    clustering does: with at least two projects before, and an identifier
    that is new, a run on the list after [handleCreateProject] ends in the
    same state after the same calls as a run on the list before. *)
Theorem clustering_ignores_fresh_project ai fuel rand t idTime now app st :
  2 <= length (projects app) ->
  ("proj-" +:+ pretty idTime) ∉ (projectId <$> projects app) ->
  handleClusterProjects ai fuel rand t
    (project <$> projects (handleCreateProject idTime now app)) st
  = handleClusterProjects ai fuel rand t (project <$> projects app) st.
Proof.
  intros Hlen Hfresh. unfold handleClusterProjects.
  cbn [handleCreateProject projects]. rewrite fmap_cons, length_cons, !length_fmap.
  destruct (Nat.ltb_spec (S (length (projects app))) 2); [lia|].
  destruct (Nat.ltb_spec (length (projects app)) 2); [lia|].
  assert (Hbody : clusterBody ai fuel rand t
                    (project (newProject idTime now) :: (project <$> projects app))
                  = clusterBody ai fuel rand t (project <$> projects app)).
  { unfold clusterBody.
    change (projectsWithPrompts (project (newProject idTime now)
                                 :: (project <$> projects app)))
      with (projectsWithPrompts (project <$> projects app)).
    destruct (embedContentBatch ai _) as [embeddings|e|]; try done.
    destruct (mapM snd _) as [vectors|]; [|done].
    destruct (kmeans _ _ _ _ _ _) as [[r t']|e|]; try done.
    apply nameBuckets_other_projects. intros pid Hin.
    apply namingText_cons_other. cbn [newProject project id].
    intros <-. apply Hfresh.
    rewrite data_ids, map_map in Hin. cbn [fst] in Hin.
    apply list_elem_of_fmap in Hin as (q & -> & Hq).
    apply list_elem_of_filter in Hq as [_ Hq].
    apply list_elem_of_fmap in Hq as (sp & -> & Hsp).
    apply list_elem_of_fmap. by exists sp. }
  by rewrite Hbody.
Qed.

Lemma clustering_ignores_fresh_project_witness :
  handleClusterProjects twinAi 3 (fun i => i) 0
    (project <$> projects (handleCreateProject 1700000000000 7 sampleApp)) idle
  = handleClusterProjects twinAi 3 (fun i => i) 0
      (project <$> projects sampleApp) idle.
Proof.
  apply (clustering_ignores_fresh_project twinAi 3 (fun i => i) 0
           1700000000000 7 sampleApp idle).
  - simpl. lia.
  - vm_compute. set_solver.
Defined.

(** ** pages/Dashboard.tsx: the project card *)

(** X20.  Saving an edited title calls [onUpdate] only with a title that is
    trimmed, not empty and different from the current one, and changes
    nothing else of the project; otherwise nothing is updated and the input
    goes back to the current title.  Editing ends either way. *)
Theorem handleSave_title (p : StoredProject) (titleInput : string) :
  isEditingState (handleSave p titleInput) = false
  ∧ match updateCall (handleSave p titleInput) with
    | Some p' =>
        projectId p' = projectId p
        ∧ prompts (project p') = prompts (project p)
        ∧ assets p' = assets p
        ∧ lastActivePage p' = lastActivePage p
        ∧ title (project p') = trim titleInput
        ∧ title (project p') <> EmptyString
        ∧ title (project p') <> title (project p)
        ∧ (forall c, head (chars (title (project p'))) = Some c ->
             isWhiteSpace c = false)
        ∧ (forall c, last (chars (title (project p'))) = Some c ->
             isWhiteSpace c = false)
    | None =>
        titleState (handleSave p titleInput) = title (project p)
        ∧ (trim titleInput = EmptyString ∨ trim titleInput = title (project p))
    end.
Proof.
  unfold handleSave.
  destruct (truthy (trim titleInput)) eqn:Htruthy; cbn [andb].
  - destruct (bool_decide_reflect (trim titleInput <> title (project p)))
      as [Hne|Heq];
      cbn [updateCall titleState isEditingState project id title prompts
           assets lastActivePage projectId].
    + repeat split; try done; try apply trim_ends.
      intros Hempty. by rewrite Hempty in Htruthy.
    + repeat split. right.
      by destruct (decide (trim titleInput = title (project p))).
  - cbn [updateCall titleState isEditingState]. repeat split. left.
    by destruct (trim titleInput).
Qed.

Lemma safe_char (c : ascii) :
  isSafeChar (lowerChar (if isAsciiAlnum c then c else "_"%char)) = true.
Proof.
  assert (Hall : forallb (fun n =>
            isSafeChar (lowerChar (if isAsciiAlnum (ascii_of_nat n)
                                   then ascii_of_nat n else "_"%char)))
            (seq 0 256) = true) by (vm_compute; reflexivity).
  rewrite forallb_forall in Hall.
  rewrite <- (ascii_nat_embedding c). apply Hall, in_seq.
  pose proof (nat_ascii_bounded c). lia.
Qed.

(** X21.  The name under which a project is exported is built from
    lower-case ASCII letters, digits and underscores only, one character
    per character of the title. *)
Theorem export_name_is_safe (p : Project) :
  String.length (safeTitle p) = String.length (title p)
  ∧ Forall (fun c => isSafeChar c = true) (chars (safeTitle p))
  ∧ exportFileName p = "QuickAI_Project_" +:+ safeTitle p +:+ ".zip".
Proof.
  unfold safeTitle. split_and!; [| |done].
  - induction (title p) as [|c s IH]; [done|]. simpl. by rewrite IH.
  - induction (title p) as [|c s IH]; [by constructor|].
    simpl. constructor; [apply safe_char|apply IH].
Qed.

Lemma pretty_N_char_digit (x : N) : isDigit (pretty_N_char x) = true.
Proof. by destruct x as [|[[[[|[]|]|[[]|[]|]|]|[[|[]|]|[[]|[]|]|]|]|[[[|[]|]|[[]|[]|]|]|[[|[]|]|[[]|[]|]|]|]|]]. Qed.

Lemma pretty_N_go_digits (x : N) (s : string) :
  Forall (fun c => isDigit c = true) (chars s) ->
  Forall (fun c => isDigit c = true) (chars (pretty_N_go x s)).
Proof.
  revert s. induction (N.lt_wf_0 x) as [x _ IH]. intros s Hs.
  destruct (decide (x = 0%N)) as [->|Hx]; [by rewrite pretty_N_go_0|].
  rewrite pretty_N_go_step by lia. apply IH.
  - apply N.div_lt; lia.
  - constructor; [apply pretty_N_char_digit|done].
Qed.

Lemma pretty_nat_digits (n : nat) :
  Forall (fun c => isDigit c = true) (chars (pretty n)).
Proof.
  unfold pretty, pretty_nat, pretty, pretty_N.
  destruct (decide (N.of_nat n = 0%N)).
  - by repeat constructor.
  - by apply pretty_N_go_digits.
Qed.

Lemma split_at_separator (sep : ascii) (d1 d2 r1 r2 : list ascii) :
  sep ∉ d1 -> sep ∉ d2 ->
  d1 ++ sep :: r1 = d2 ++ sep :: r2 -> d1 = d2 ∧ r1 = r2.
Proof.
  revert d2. induction d1 as [|c d1 IH]; intros [|c' d2] H1 H2 Heq; simpl in Heq.
  - by injection Heq as ->.
  - injection Heq as <- _. exfalso. apply H2. by left.
  - injection Heq as -> _. exfalso. apply H1. by left.
  - injection Heq as <- Heq. apply not_elem_of_cons in H1 as [_ H1].
    apply not_elem_of_cons in H2 as [_ H2].
    by destruct (IH d2 H1 H2 Heq) as [-> ->].
Qed.

Lemma digits_no_dot (n : nat) : "."%char ∉ chars (pretty n).
Proof.
  intros Hin. pose proof (pretty_nat_digits n) as Hall.
  rewrite Forall_forall in Hall. by apply Hall in Hin.
Qed.

Lemma assetTypeName_inj (ty1 ty2 : AssetType) :
  chars (assetTypeName ty1) = chars (assetTypeName ty2) -> ty1 = ty2.
Proof. by destruct ty1, ty2. Qed.

Lemma assetTypeName_no_underscore (ty : AssetType) :
  "_"%char ∉ chars (assetTypeName ty).
Proof. destruct ty; vm_compute; set_solver. Qed.

(** The name of an entry, whatever the suffix, determines the asset's
    position and type. *)
Lemma entry_name_index (ty1 ty2 : AssetType) (i1 i2 : nat) (suffix1 suffix2 : string) :
  assetFileName ty1 i1 +:+ suffix1 = assetFileName ty2 i2 +:+ suffix2 ->
  ty1 = ty2 ∧ i1 = i2.
Proof.
  intros Heq. apply (f_equal chars) in Heq. unfold assetFileName in Heq.
  rewrite !chars_append in Heq. rewrite <- !app_assoc in Heq.
  change (chars "_") with ["_"%char] in Heq.
  change (chars ".") with ["."%char] in Heq. cbn [app] in Heq.
  apply split_at_separator in Heq as [Hty Heq];
    [|apply assetTypeName_no_underscore..].
  apply split_at_separator in Heq as [Hdigits _]; [|apply digits_no_dot..].
  split; [by apply assetTypeName_inj|].
  apply chars_inj, (inj pretty) in Hdigits. lia.
Qed.

Lemma assetEntry_name fetch (index : nat) (asset : Asset) :
  exists suffix, (assetEntry fetch index asset).1
                 = assetFileName (assetType asset) index +:+ suffix.
Proof.
  unfold assetEntry.
  destruct (assetType asset); [by exists EmptyString; rewrite append_empty_r|..];
    (destruct (fetch (content asset));
     [by exists EmptyString; rewrite append_empty_r|by eexists]).
Qed.

(** X22.  The export writes one entry per asset into the assets folder and
    no two entries have the same name, whether the downloads succeed or
    fail: no asset overwrites another.  A text asset is stored under
    text_ followed by its position counted from 1, with its content. *)
Theorem export_entries_distinct fetch (assets : list Asset) :
  length (assetEntries fetch assets) = length assets
  ∧ NoDup (assetEntries fetch assets).*1
  ∧ (forall i asset, assets !! i = Some asset -> assetType asset = AssetText ->
       assetEntries fetch assets !! i
       = Some (assetFileName AssetText i, content asset)).
Proof.
  unfold assetEntries. split_and!.
  - apply length_imap.
  - apply NoDup_alt. intros i j name Hi Hj.
    rewrite list_lookup_fmap, list_lookup_imap in Hi, Hj.
    destruct (assets !! i) as [a1|]; [|done].
    destruct (assets !! j) as [a2|]; [|done].
    simpl in Hi, Hj. injection Hi as Hi. injection Hj as Hj.
    destruct (assetEntry_name fetch i a1) as [s1 H1].
    destruct (assetEntry_name fetch j a2) as [s2 H2].
    rewrite H1 in Hi. rewrite H2 in Hj.
    by destruct (entry_name_index _ _ _ _ _ _ (eq_trans Hi (eq_sym Hj))).
  - intros i asset Hi Hty. rewrite list_lookup_imap, Hi. simpl.
    unfold assetEntry. by rewrite Hty.
Qed.

(** * The history hook *)

Lemma undo_step {T : Type} (ps : list T) (p x : T) (fs : list T) :
  undo {| past := ps ++ [p]; present := x; future := fs |}
  = {| past := ps; present := p; future := x :: fs |}.
Proof.
  unfold undo, canUndo. cbn [past present future].
  rewrite length_app. cbn [length].
  rewrite bool_decide_eq_true_2 by lia.
  replace (length ps + 1 - 1) with (length ps) by lia.
  rewrite lookup_app_r by lia. rewrite Nat.sub_diag. cbn [lookup list_lookup].
  by rewrite take_app_length.
Qed.

Lemma redo_step {T : Type} (ps : list T) (x f : T) (fs : list T) :
  redo {| past := ps; present := x; future := f :: fs |}
  = {| past := ps ++ [x]; present := f; future := fs |}.
Proof. done. Qed.

Lemma past_snoc {T : Type} (h : HistoryState T) :
  canUndo h = true -> exists ps p, past h = ps ++ [p].
Proof.
  unfold canUndo. intros Hcan%bool_decide_eq_true.
  destruct (past h) as [|p0 ps0] using rev_ind; [simpl in Hcan; lia|by eauto].
Qed.

(** X23.  The operations [undo] and [redo] are inverse to each other: a redo
    after an undo, and an undo after a redo, lead back to the same history
    whenever the first of the two applies; where one does not apply, it
    changes nothing. *)
Theorem undo_redo_round_trip {T : Type} (h : HistoryState T) :
  (canUndo h = true -> redo (undo h) = h ∧ canRedo (undo h) = true)
  ∧ (canRedo h = true -> undo (redo h) = h ∧ canUndo (redo h) = true)
  ∧ (canUndo h = false -> undo h = h)
  ∧ (canRedo h = false -> redo h = h).
Proof.
  destruct h as [ps x fs]. split_and!.
  - intros (ps' & p & Hps)%past_snoc. cbn [past] in Hps. subst ps.
    by rewrite undo_step, redo_step.
  - unfold canRedo at 1. cbn [future]. intros Hcan%bool_decide_eq_true.
    destruct fs as [|f fs]; [simpl in Hcan; lia|].
    rewrite redo_step, undo_step. split; [done|].
    unfold canUndo. cbn [past]. rewrite length_app. cbn [length].
    apply bool_decide_eq_true_2. lia.
  - unfold undo. by intros ->.
  - unfold redo. by intros ->.
Qed.

(** X24.  Setting a value different from the present one makes it the
    present value, leaves nothing to redo, and can be undone: the undo
    restores the past and the present as they were, with the new value as
    the one to redo.  Setting the present value again changes nothing. *)
Theorem setState_then_undo {T : Type} `{EqDecision T} (newState : T)
    (h : HistoryState T) :
  (newState <> present h ->
   present (setState newState h) = newState
   ∧ canRedo (setState newState h) = false
   ∧ canUndo (setState newState h) = true
   ∧ past (undo (setState newState h)) = past h
   ∧ present (undo (setState newState h)) = present h
   ∧ future (undo (setState newState h)) = [newState])
  ∧ setState (present h) h = h.
Proof.
  unfold setState, setStateWith. cbn beta zeta. split.
  - intros Hne. rewrite bool_decide_eq_false_2 by done.
    rewrite undo_step. cbn [past present future]. split_and!; try done.
    unfold canUndo. cbn [past]. rewrite length_app. cbn [length].
    apply bool_decide_eq_true_2. lia.
  - by rewrite bool_decide_eq_true_2.
Qed.

Lemma undo_timeline {T : Type} (h : HistoryState T) :
  timeline (undo h) = timeline h.
Proof.
  destruct h as [ps x fs]. destruct ps as [|p ps _] using rev_ind; [done|].
  rewrite undo_step. unfold timeline. cbn [past present future].
  by rewrite <- app_assoc.
Qed.

Lemma redo_timeline {T : Type} (h : HistoryState T) :
  timeline (redo h) = timeline h.
Proof.
  destruct h as [ps x fs]. destruct fs as [|f fs]; [done|].
  rewrite redo_step. unfold timeline. cbn [past present future].
  by rewrite <- app_assoc.
Qed.

Lemma applyAction_first {T : Type} `{EqDecision T} (h : HistoryState T)
    (a : HistoryAction T) :
  noReset a = true -> head (timeline (applyAction h a)) = head (timeline h).
Proof.
  destruct a as [| |x|x]; cbn [applyAction noReset]; [| | |done]; intros _.
  - by rewrite undo_timeline.
  - by rewrite redo_timeline.
  - unfold setState, setStateWith. cbn beta zeta.
    destruct (bool_decide (x = present h)); [done|].
    unfold timeline. cbn [past present future]. by destruct (past h).
Qed.

Lemma runActions_first {T : Type} `{EqDecision T}
    (actions : list (HistoryAction T)) (h : HistoryState T) :
  Forall (fun a => noReset a = true) actions ->
  head (timeline (runActions h actions)) = head (timeline h).
Proof.
  unfold runActions. revert h.
  induction actions as [|a actions IH]; intros h Hall; [done|].
  apply Forall_cons in Hall as [Ha Hall]. cbn [foldl].
  by rewrite IH, applyAction_first.
Qed.

Lemma undoAll_first {T : Type} (h : HistoryState T) :
  head (timeline h) = Some (present (undoAll h)) ∧ past (undoAll h) = [].
Proof.
  unfold undoAll. destruct h as [ps x fs]. cbn [past]. revert x fs.
  induction ps as [|p ps IH] using rev_ind; intros x fs; [done|].
  rewrite length_app. cbn [length]. rewrite Nat.add_1_r, Nat.iter_succ_r.
  rewrite undo_step. destruct (IH p (x :: fs)) as [<- Hpast]. split; [|done].
  unfold timeline. cbn [past present future]. by rewrite <- app_assoc.
Qed.

(** X25.  As long as the history is not reset, undoing as far as possible
    leads back to the initial state, whatever was set, undone and redone in
    between. *)
Theorem undo_reaches_initial_state {T : Type} `{EqDecision T} (initialState : T)
    (actions : list (HistoryAction T)) :
  Forall (fun a => noReset a = true) actions ->
  present (undoAll (runActions (initialHistory initialState) actions))
  = initialState
  ∧ canUndo (undoAll (runActions (initialHistory initialState) actions)) = false.
Proof.
  intros Hall.
  pose proof (runActions_first actions (initialHistory initialState) Hall) as Hfirst.
  destruct (undoAll_first (runActions (initialHistory initialState) actions))
    as [Hhead Hpast].
  rewrite Hfirst in Hhead. injection Hhead as <-. split; [done|].
  unfold canUndo. by rewrite Hpast.
Qed.

Lemma undo_reaches_initial_state_witness :
  present (undoAll (runActions (initialHistory "a")
                      [DoSetState "b"; DoSetState "c"; DoUndo; DoSetState "d"; DoRedo]))
  = "a"
  ∧ canUndo (undoAll (runActions (initialHistory "a")
                        [DoSetState "b"; DoSetState "c"; DoUndo; DoSetState "d"; DoRedo]))
    = false.
Proof.
  apply (undo_reaches_initial_state "a"
           [DoSetState "b"; DoSetState "c"; DoUndo; DoSetState "d"; DoRedo]).
  repeat (constructor; [reflexivity|]). constructor.
Defined.
